(** * AtlasPulse gateway: target registry, log ring and health aggregator

    A shallow embedding of [services/gateway/src/index.js]:
    - the parsing of [SERVICE_TARGETS] into [parsedTargets];
    - the in-memory log buffer ([logsBuffer], [MAX_LOGS], [addLog]) and the
      [/obs/logs] handler that reads it;
    - the [/obs/healthgraph] handler, which probes every target through
      [axios.get] under [Promise.all].

    JavaScript strings are sequences of UTF-16 code units, arrays of log
    entries live in a store indexed by references, the system clock is an
    oracle read through a counter, and the order in which the pending
    promises settle is an input of the model. *)

From Stdlib Require Import ZArith NArith List Ascii String DecimalString.
From Stdlib Require Import Floats.PrimFloat.
From stdpp Require Import base option list gmap.

Local Open Scope Z_scope.
Local Set Warnings "-register-all".

(** ** JavaScript strings and values *)

Module JS.

(** A string is its sequence of UTF-16 code units. *)
Abbreviation code_unit := N (only parsing).
Abbreviation jsstring := (list N) (only parsing).

(** The code units of an ASCII literal. *)
Definition js (s : string) : jsstring :=
  List.map N_of_ascii (list_ascii_of_string s).

Definition COMMA : code_unit := 44%N.
Definition EQUALS : code_unit := 61%N.

(** [WhiteSpace] and [LineTerminator] of ECMAScript: what
    [String.prototype.trim] strips. *)
Definition isWhiteSpace (c : code_unit) : bool :=
  existsb (N.eqb c)
    [9; 10; 11; 12; 13; 32; 160; 5760; 8232; 8233; 8239; 8287; 12288; 65279]%N
  || ((8192 <=? c)%N && (c <=? 8202)%N).

Fixpoint trimStart (s : jsstring) : jsstring :=
  match s with
  | c :: s' => if isWhiteSpace c then trimStart s' else s
  | [] => []
  end.

Definition trimEnd (s : jsstring) : jsstring := rev (trimStart (rev s)).

Definition trim (s : jsstring) : jsstring := trimEnd (trimStart s).

(** [s.split(sep)] for a separator of one code unit: the pieces between the
    occurrences of [sep]; never the empty array. *)
Fixpoint split (sep : code_unit) (s : jsstring) : list jsstring :=
  match s with
  | [] => [[]]
  | c :: s' =>
      if N.eqb c sep then [] :: split sep s'
      else match split sep s' with
           | piece :: pieces => (c :: piece) :: pieces
           | [] => [[c]]
           end
  end.

(** [pieces.join(sep)], the inverse direction, used to build inputs. *)
Fixpoint join (sep : code_unit) (pieces : list jsstring) : jsstring :=
  match pieces with
  | [] => []
  | [piece] => piece
  | piece :: rest => piece ++ sep :: join sep rest
  end.

(** Decimal rendering of an integral number below [10^21] in magnitude, as
    a template literal does. *)
Definition Number_toString (n : Z) : jsstring :=
  js (NilZero.string_of_int (Z.to_int n)).

(** The values a response body can hold once axios has decoded it, and
    [undefined]. Numbers are IEEE 754 doubles. *)
Inductive value : Type :=
  | Undefined
  | Null
  | Bool (b : bool)
  | Num (x : float)
  | Str (s : jsstring)
  | Arr (items : list value)
  | Obj (props : list (jsstring * value)).

(** [ToBoolean]: what [||] and [Boolean(..)] test. *)
Definition truthy (v : value) : bool :=
  match v with
  | Undefined | Null => false
  | Bool b => b
  | Num x => negb (PrimFloat.is_zero x || PrimFloat.is_nan x)
  | Str s => negb (bool_decide (s = []))
  | Arr _ | Obj _ => true
  end.

(** [a || b]. *)
Definition or_else (a b : value) : value := if truthy a then a else b.

(** The same on an operand that is a string or [undefined]. *)
Definition or_string (a : option jsstring) (b : jsstring) : jsstring :=
  match a with
  | Some (c :: s) => c :: s
  | Some [] | None => b
  end.

(** Own property lookup on a decoded object ([props] lists its properties,
    each name once). *)
Fixpoint assoc (key : jsstring) (props : list (jsstring * value)) : value :=
  match props with
  | [] => Undefined
  | (k, v) :: rest => if bool_decide (k = key) then v else assoc key rest
  end.

(** [v?.status]: [undefined] on [null] and [undefined]; on a primitive or an
    array there is no such property; on an object, its property. *)
Definition optional_status (v : value) : value :=
  match v with
  | Obj props => assoc (js "status") props
  | _ => Undefined
  end.

(** What a call can do besides returning. *)
Inductive js_error := TypeError.

Inductive completion (A : Type) : Type :=
  | Return (a : A)
  | Throw (e : js_error).
Arguments Return {A} a.
Arguments Throw {A} e.

(** [xs.map(f)] for a callback that may throw: elements are visited in
    order and the first exception leaves the loop. *)
Fixpoint array_map {A B} (f : A → completion B) (xs : list A)
  : completion (list B) :=
  match xs with
  | [] => Return []
  | x :: xs' =>
      match f x with
      | Throw e => Throw e
      | Return y =>
          match array_map f xs' with
          | Throw e => Throw e
          | Return ys => Return (y :: ys)
          end
      end
  end.

End JS.

Import JS.

(** ** Target registry *)

Module Target.
Record t := mk { name : jsstring; baseUrl : jsstring }.
End Target.

(** [process.env.SERVICE_TARGETS || "users=http://users-service:4001"]. *)
Definition SERVICE_TARGETS (env : option jsstring) : jsstring :=
  or_string env (js "users=http://users-service:4001").

(** The callback of [.map]: [const [name, url] = pair.split("=")] binds the
    first two pieces; with a single piece [url] is [undefined] and
    [url.trim()] throws. *)
Definition parse_pair (pair : jsstring) : completion Target.t :=
  match split EQUALS pair with
  | name :: url :: _ => Return (Target.mk (trim name) (trim url))
  | _ => Throw TypeError
  end.

(** [.filter(Boolean)] on strings keeps the non-empty ones. *)
Definition Boolean_str (s : jsstring) : bool := truthy (Str s).

Definition parsedTargets (raw : jsstring) : completion (list Target.t) :=
  array_map parse_pair (List.filter Boolean_str (split COMMA raw)).

(** ** Store, clock and the log ring *)

Module LogEntry.
Record t := mk { ts : Z; level : jsstring; service : jsstring; msg : jsstring }.
End LogEntry.

(** The object literal handed to [addLog]: each property is a string or is
    left out. *)
Module Fields.
Record t := mk {
  level : option jsstring;
  service : option jsstring;
  msg : option jsstring
}.
End Fields.

(** Arrays of log entries are objects with identity: the store maps a
    reference to the current contents of the array it denotes. Log entries
    are never written after [addLog] builds them, so they are values.
    [ticks] counts the readings of the system clock taken so far. *)
Record state := State {
  heap : gmap nat (list LogEntry.t);
  ticks : nat
}.

Definition M (A : Type) : Type := state → A * state.

Definition ret {A} (a : A) : M A := λ s, (a, s).

Definition bind {A B} (m : M A) (k : A → M B) : M B :=
  λ s, let (a, s') := m s in k a s'.

Declare Scope js_scope.
Delimit Scope js_scope with js.
Notation "'let*' x := m 'in' k" := (bind m (λ x, k))
  (at level 10, x name, m at level 100, k at level 200) : js_scope.
Notation "m ;; k" := (bind m (λ _, k))
  (at level 100, k at level 200, right associativity) : js_scope.
Local Open Scope js_scope.

Definition deref (h : gmap nat (list LogEntry.t)) (r : nat) : list LogEntry.t :=
  default [] (h !! r).

(** [r.push(e)] *)
Definition array_push (r : nat) (e : LogEntry.t) : M unit :=
  λ s, (tt, State (<[r := deref (heap s) r ++ [e]]> (heap s)) (ticks s)).

(** [r.length] *)
Definition array_length (r : nat) : M nat :=
  λ s, (length (deref (heap s) r), s).

(** [r.shift()], its result dropped *)
Definition array_shift (r : nat) : M unit :=
  λ s, (tt, State (<[r := tail (deref (heap s) r)]> (heap s)) (ticks s)).

(** [[...r]]: a new array with the elements of [r] *)
Definition array_spread (r : nat) : M nat :=
  λ s, let r' := fresh (dom (heap s)) in
       (r', State (<[r' := deref (heap s) r]> (heap s)) (ticks s)).

(** [r.reverse()]: reverses [r] in place and returns [r] itself *)
Definition array_reverse (r : nat) : M nat :=
  λ s, (r, State (<[r := rev (deref (heap s) r)]> (heap s)) (ticks s)).

(** [const logsBuffer = []] is the first array the module allocates. *)
Definition logsBuffer : nat := 0%nat.
Definition MAX_LOGS : nat := 200%nat.

Definition boot : state := State {[ logsBuffer := [] ]} 0.

(** How the promise of [axios.get] settles. *)
Inductive axios_result :=
  | Resolved (data : value)
  | Rejected (message : jsstring).

Module HealthOutcome.
Record t := mk {
  name : jsstring;
  url : jsstring;
  status : value;
  latencyMs : Z;
  error : option jsstring;
  lastCheck : Z
}.
End HealthOutcome.

Section Gateway.

(** The [n]-th reading of the system clock, in milliseconds. *)
Variable clock : nat → Z.

(** [Date.now()] *)
Definition Date_now : M Z :=
  λ s, (clock (ticks s), State (heap s) (S (ticks s))).

(** [new Date().toISOString()]: the reading is kept as the time value the
    text renders. *)
Definition new_Date_toISOString : M Z := Date_now.

Definition addLog (entry : Fields.t) : M unit :=
  let* ts := new_Date_toISOString in
  array_push logsBuffer
    (LogEntry.mk ts
       (or_string (Fields.level entry) (js "info"))
       (or_string (Fields.service entry) (js "gateway"))
       (or_string (Fields.msg entry) (js "")));;
  let* n := array_length logsBuffer in
  if (MAX_LOGS <? n)%nat then array_shift logsBuffer else ret tt.

(** The call after the definition of [addLog], at module load. *)
Definition startup : M unit :=
  addLog (Fields.mk (Some (js "info")) (Some (js "gateway"))
            (Some (js "Gateway started"))).

(** [GET /obs/logs]: [items] is the reference whose contents go into the
    response. *)
Definition obs_logs : M nat :=
  let* copy := array_spread logsBuffer in
  array_reverse copy.

(** ** Health aggregator *)

(** One invocation of the async callback of [parsedTargets.map]: its
    target, the clock reading taken before the request left, and the value
    its promise resolved with, once it has. *)
Record probe := Probe {
  svc : Target.t;
  start : Z;
  settled : option HealthOutcome.t
}.

(** The callback up to its [await]: it reads the clock, issues the request
    and suspends. *)
Definition probe_begin (svc : Target.t) : M probe :=
  let* start := Date_now in
  ret (Probe svc start None).

(** The callback from its [await] on, once [axios.get] has settled: the
    [try] branch on a resolved promise, the [catch] branch on a rejected
    one. Nothing in it suspends again. *)
Definition probe_resume (svc : Target.t) (start : Z) (r : axios_result)
  : M HealthOutcome.t :=
  match r with
  | Resolved data =>
      let* now := Date_now in
      let durationMs := now - start in
      addLog (Fields.mk (Some (js "info")) (Some (Target.name svc))
                (Some (js "Healthcheck ok (" ++ Number_toString durationMs
                         ++ js "ms)")));;
      let* lastCheck := new_Date_toISOString in
      ret (HealthOutcome.mk (Target.name svc) (Target.baseUrl svc)
             (or_else (optional_status data) (Str (js "unknown")))
             durationMs None lastCheck)
  | Rejected message =>
      let* now := Date_now in
      let durationMs := now - start in
      addLog (Fields.mk (Some (js "error")) (Some (Target.name svc))
                (Some (js "Healthcheck failed (" ++ Number_toString durationMs
                         ++ js "ms): " ++ message)));;
      let* lastCheck := new_Date_toISOString in
      ret (HealthOutcome.mk (Target.name svc) (Target.baseUrl svc)
             (Str (js "down")) durationMs (Some message) lastCheck)
  end.

(** [parsedTargets.map(async (svc) => ..)]: the callbacks start in registry
    order and each runs to its [await]. *)
Fixpoint launch (targets : list Target.t) : M (list probe) :=
  match targets with
  | [] => ret []
  | svc :: rest =>
      let* p := probe_begin svc in
      let* ps := launch rest in
      ret (p :: ps)
  end.

(** The request of probe [i] settles with [net i]: its callback resumes,
    runs to its end and resolves the [i]-th promise. A promise settles
    once. *)
Definition settle (net : nat → axios_result) (tasks : list probe) (i : nat)
  : M (list probe) :=
  match tasks !! i with
  | Some (Probe svc start None) =>
      let* outcome := probe_resume svc start (net i) in
      ret (<[i := Probe svc start (Some outcome)]> tasks)
  | _ => ret tasks
  end.

(** The event loop delivers the settlements in the order [schedule]. *)
Fixpoint event_loop (net : nat → axios_result) (schedule : list nat)
    (tasks : list probe) : M (list probe) :=
  match schedule with
  | [] => ret tasks
  | i :: later =>
      let* tasks' := settle net tasks i in
      event_loop net later tasks'
  end.

(** [Promise.all]: resolved, with the values by input index, once every
    promise has resolved; pending until then. The callbacks never reject. *)
Definition Promise_all (tasks : list probe) : option (list HealthOutcome.t) :=
  mapM settled tasks.

Record healthgraph := Healthgraph {
  timestamp : Z;
  services : list HealthOutcome.t
}.

(** [GET /obs/healthgraph]: [Some] body when the handler responds, [None]
    while it still awaits [Promise.all]. *)
Definition obs_healthgraph (targets : list Target.t)
    (net : nat → axios_result) (schedule : list nat)
  : M (option healthgraph) :=
  let* tasks := launch targets in
  let* tasks := event_loop net schedule tasks in
  match Promise_all tasks with
  | Some results =>
      let* timestamp := new_Date_toISOString in
      ret (Some (Healthgraph timestamp results))
  | None => ret None
  end.

End Gateway.

(** Appending [entries] one call after the other. *)
Fixpoint addLogs (clock : nat → Z) (entries : list Fields.t) : M unit :=
  match entries with
  | [] => ret tt
  | entry :: rest => addLog clock entry;; addLogs clock rest
  end.

(** The ring as a client of the store sees it. *)
Definition ring (s : state) : list LogEntry.t := deref (heap s) logsBuffer.

(** ** Notions used in the statements *)

(** The entry [name=url], from its two parts. *)
Definition entry_of (name url : jsstring) : jsstring := name ++ EQUALS :: url.

(** An entry that has a [=] but whose name or URL is empty once trimmed. *)
Definition blank_field (entry : jsstring) : Prop :=
  match split EQUALS entry with
  | name :: url :: _ => trim name = [] ∨ trim url = []
  | _ => False
  end.

(** The entry [addLog] stores when the clock reads [ts]. *)
Definition stamp (ts : Z) (entry : Fields.t) : LogEntry.t :=
  LogEntry.mk ts
    (or_string (Fields.level entry) (js "info"))
    (or_string (Fields.service entry) (js "gateway"))
    (or_string (Fields.msg entry) (js "")).

(** The contents of the ring after one call of [addLog] storing [e]. *)
Definition ring_add (buf : list LogEntry.t) (e : LogEntry.t)
  : list LogEntry.t :=
  if (MAX_LOGS <? length (buf ++ [e]))%nat then tail (buf ++ [e])
  else buf ++ [e].

(** The entries stored by successive calls of [addLog] that start when the
    clock has been read [t] times. *)
Definition stamps (clock : nat → Z) (t : nat) (entries : list Fields.t)
  : list LogEntry.t :=
  imap (λ i entry, stamp (clock (t + i)%nat) entry) entries.

(** [stored] is the property [addLog] writes for a property [given] in its
    argument, with [dflt] standing in when [given] is left out (or is the
    empty string, which [||] does not tell apart). *)
Definition defaulted (given : option jsstring) (dflt stored : jsstring) : Prop :=
  match given with
  | None | Some [] => stored = dflt
  | Some l => stored = l
  end.

(** What the callback of a probe hands to [addLog] and what it resolves
    with, from the clock readings it takes: [start] before the request,
    [now] when it resumes, [lastCheck] when it builds its result. *)
Definition report_of (svc : Target.t) (start now : Z) (r : axios_result)
  : Fields.t :=
  match r with
  | Resolved _ =>
      Fields.mk (Some (js "info")) (Some (Target.name svc))
        (Some (js "Healthcheck ok (" ++ Number_toString (now - start)
                 ++ js "ms)"))
  | Rejected message =>
      Fields.mk (Some (js "error")) (Some (Target.name svc))
        (Some (js "Healthcheck failed (" ++ Number_toString (now - start)
                 ++ js "ms): " ++ message))
  end.

Definition outcome_of (svc : Target.t) (start now lastCheck : Z)
    (r : axios_result) : HealthOutcome.t :=
  match r with
  | Resolved data =>
      HealthOutcome.mk (Target.name svc) (Target.baseUrl svc)
        (or_else (optional_status data) (Str (js "unknown")))
        (now - start) None lastCheck
  | Rejected message =>
      HealthOutcome.mk (Target.name svc) (Target.baseUrl svc)
        (Str (js "down")) (now - start) (Some message) lastCheck
  end.

(** The clock readings of one run of the handler over [N] targets that
    starts when the clock has been read [t0] times: probe [i] reads its
    [start] at [t0 + i]; the probe that settles [k]-th reads the clock at
    [t0 + N + 3k] on resuming, [addLog] reads it next, and the result is
    dated by the reading after. *)
Definition started_at (clock : nat → Z) (t0 i : nat) : Z :=
  clock (t0 + i)%nat.
Definition resumed_at (clock : nat → Z) (t0 N k : nat) : Z :=
  clock (t0 + N + 3 * k)%nat.
Definition logged_at (clock : nat → Z) (t0 N k : nat) : Z :=
  clock (t0 + N + 3 * k + 1)%nat.
Definition checked_at (clock : nat → Z) (t0 N k : nat) : Z :=
  clock (t0 + N + 3 * k + 2)%nat.

(** The run of the handler over [targets] that starts in state [s0], with
    requests that settle as [net] says. *)
Section Run.

Variable clock : nat → Z.
Variable net : nat → axios_result.
Variable targets : list Target.t.
Variable s0 : state.

Definition target_at (i : nat) : Target.t :=
  default (Target.mk [] []) (targets !! i).

(** The entries the probes store, in the order in which they settle. *)
Definition logs_of (schedule : list nat) : list LogEntry.t :=
  imap (λ k i,
          stamp (logged_at clock (ticks s0) (length targets) k)
            (report_of (target_at i) (started_at clock (ticks s0) i)
               (resumed_at clock (ticks s0) (length targets) k) (net i)))
    schedule.

(** The promises once the settlements of [schedule] have been delivered. *)
Definition tasks_ok (schedule : list nat) (tasks : list probe) : Prop :=
  length tasks = length targets
  ∧ ∀ i svc, targets !! i = Some svc →
      (i ∉ schedule →
       tasks !! i = Some (Probe svc (started_at clock (ticks s0) i) None))
      ∧ (∀ k, schedule !! k = Some i →
           tasks !! i
           = Some (Probe svc (started_at clock (ticks s0) i)
                     (Some (outcome_of svc (started_at clock (ticks s0) i)
                              (resumed_at clock (ticks s0) (length targets) k)
                              (checked_at clock (ticks s0) (length targets) k)
                              (net i))))).

Definition launched : list probe * state := launch clock targets s0.

End Run.

(** Two stores that agree on every array but the ring. *)
Definition same_elsewhere (s s' : state) : Prop :=
  ∀ r, r ≠ logsBuffer → heap s' !! r = heap s !! r.

(** ** The rest of the gateway and the users service *)

(** A string that [trim] leaves alone: neither its first nor its last code
    unit is white space. *)
Definition trimmed (s : jsstring) : Prop :=
  (∀ c, head s = Some c → isWhiteSpace c = false)
  ∧ (∀ c, last s = Some c → isWhiteSpace c = false).

(** The raw string that lists [targets], the way [SERVICE_TARGETS] is
    written. *)
Definition render (targets : list Target.t) : jsstring :=
  join COMMA
    (List.map (λ svc, entry_of (Target.name svc) (Target.baseUrl svc)) targets).

(** The two pieces the callback of [.map] binds, [undefined] read as the
    empty string. *)
Definition name_part (entry : jsstring) : jsstring :=
  nth 0 (split EQUALS entry) [].
Definition url_part (entry : jsstring) : jsstring :=
  nth 1 (split EQUALS entry) [].

(** What express hands a handler for one parameter of the query string: a
    string, or an array or an object of such when the parameter is given
    several times or with brackets. *)
Inductive param : Type :=
  | PStr (s : jsstring)
  | PArr (items : list param)
  | PObj (props : list (jsstring * param)).

(** An object that has a property [toString] of its own. Coming from a
    query string or from JSON, that property is never a function. *)
Definition own_toString {A} (props : list (jsstring * A)) : bool :=
  existsb (λ kv, bool_decide (kv.1 = js "toString")) props.

(** The text a template literal renders a parameter with: a string is its
    own text, an array the texts of its elements joined by commas, an
    object ["[object Object]"]; but the conversion throws on an object that
    has a property [toString] of its own, since neither that property nor
    what [valueOf] returns gives a primitive. *)
Fixpoint param_toString (p : param) : completion jsstring :=
  match p with
  | PStr s => Return s
  | PArr items =>
      match array_map param_toString items with
      | Return texts => Return (join COMMA texts)
      | Throw e => Throw e
      end
  | PObj props =>
      if own_toString props then Throw TypeError
      else Return (js "[object Object]")
  end.

(** The message of the error such a conversion throws. *)
Definition error_message (e : js_error) : jsstring :=
  js "Cannot convert object to primitive value".

(** [!query] is false for every parameter but the absent one and the empty
    string. *)
Definition param_truthy (query : option param) : bool :=
  match query with
  | None | Some (PStr []) => false
  | Some _ => true
  end.

(** The code unit of the double quote. *)
Definition QUOTE : N := 34%N.

(** A response: its status code and the value [res.json] serialises. *)
Record reply := Reply { code : nat; json : value }.

Module Health.
Record t := mk {
  service : jsstring;
  status : jsstring;
  timestamp : Z;
  services : list jsstring
}.
End Health.

Module Trace.
Record t := mk {
  traceId : jsstring;
  rootService : jsstring;
  durationMs : Z;
  timestamp : Z
}.
End Trace.

(** The store once the module has loaded, for any clock. *)
Definition listening_store (clock : nat → Z) : state := (startup clock boot).2.

(** The handlers that await [Promise.all] or [axios.get], by order of
    arrival: the promises of each pending [/obs/healthgraph], and the query
    of each [/obs/query] until it is answered. *)
Record server := Server {
  store : state;
  graphs : list (list probe);
  queries : list (option param)
}.

(** What the event loop runs: a request arrives, or the request a handler
    awaits settles. *)
Inductive event :=
  | GET_health
  | GET_obs_logs
  | GET_obs_traces
  | GET_obs_query (query : option param)
  | GET_obs_healthgraph
  | query_settles (id : nat) (r : axios_result)
  | probe_settles (id i : nat) (r : axios_result).

Inductive response :=
  | health_json (body : Health.t)
  | logs_json (items : nat)
  | traces_json (items : list Trace.t)
  | query_json (r : reply)
  | healthgraph_json (body : healthgraph).

Section Handlers.

Variable clock : nat → Z.
Variable targets : list Target.t.

(** [GET /health] *)
Definition obs_health : M Health.t :=
  let* timestamp := new_Date_toISOString clock in
  ret (Health.mk (js "gateway") (js "ok") timestamp
         (List.map Target.name targets)).

(** [GET /obs/traces] *)
Definition obs_traces : M (list Trace.t) :=
  let* timestamp := new_Date_toISOString clock in
  ret [Trace.mk (js "demo-trace-123") (js "users") 42 timestamp].

(** The answer of [GET /obs/query] to a request without a query. *)
Definition missing_query : reply :=
  Reply 400 (Obj [(js "error", Str (js "Missing PromQL query"))]).

(** [GET /obs/query] up to its [await]: the query it forwards to
    Prometheus, if [!query] does not turn the request down. *)
Definition obs_query_begin (query : option param) : option param :=
  if param_truthy query then query else None.

(** The [catch] block of [GET /obs/query], for an error with [message]. The
    template literal is evaluated before [addLog] is called: when it throws,
    nothing is stored and the exception leaves the handler. What
    [console.error] prints is left out. *)
Definition obs_query_catch (query : param) (message : jsstring)
  : M (completion reply) :=
  match param_toString query with
  | Return text =>
      addLog clock
        (Fields.mk (Some (js "error")) (Some (js "gateway"))
           (Some (js "PromQL query failed: " ++ QUOTE :: text
                    ++ QUOTE :: js " - " ++ message)));;
      ret (Return
             (Reply 500
                (Obj [(js "error", Str (js "Failed to query Prometheus"))])))
  | Throw e => ret (Throw e)
  end.

(** [GET /obs/query] once the request to Prometheus has settled: the rest
    of the [try] block when it resolved, the [catch] block when it was
    rejected, and the [catch] block too when the [try] block throws. *)
Definition obs_query_resume (query : param) (r : axios_result)
  : M (completion reply) :=
  match r with
  | Resolved data =>
      match param_toString query with
      | Return text =>
          addLog clock
            (Fields.mk (Some (js "info")) (Some (js "gateway"))
               (Some (js "PromQL query executed: " ++ QUOTE :: text
                        ++ [QUOTE])));;
          ret (Return (Reply 200 data))
      | Throw e => obs_query_catch query (error_message e)
      end
  | Rejected message => obs_query_catch query message
  end.

(** [GET /obs/query] served with nothing in between: [upstream] is how the
    request to Prometheus settles. *)
Definition obs_query (query : option param) (upstream : axios_result)
  : M (completion reply) :=
  match obs_query_begin query with
  | Some q => obs_query_resume q upstream
  | None => ret (Return missing_query)
  end.

(** One turn of the event loop. An exception that leaves the handler of
    [/obs/query] is an unhandled rejection: the request gets no answer.
    Whether the process goes on after it is up to the runtime; here it
    does, which only adds runs to those of a process that stops. *)
Definition step (ev : event) (sv : server) : option response * server :=
  match ev with
  | GET_health =>
      let (body, st) := obs_health (store sv) in
      (Some (health_json body), Server st (graphs sv) (queries sv))
  | GET_obs_logs =>
      let (items, st) := obs_logs (store sv) in
      (Some (logs_json items), Server st (graphs sv) (queries sv))
  | GET_obs_traces =>
      let (items, st) := obs_traces (store sv) in
      (Some (traces_json items), Server st (graphs sv) (queries sv))
  | GET_obs_query query =>
      match obs_query_begin query with
      | Some q =>
          (None, Server (store sv) (graphs sv) (queries sv ++ [Some q]))
      | None => (Some (query_json missing_query), sv)
      end
  | query_settles id r =>
      match queries sv !! id with
      | Some (Some q) =>
          let (answer, st) := obs_query_resume q r (store sv) in
          (match answer with
           | Return a => Some (query_json a)
           | Throw _ => None
           end,
           Server st (graphs sv) (<[id := None]> (queries sv)))
      | _ => (None, sv)
      end
  | GET_obs_healthgraph =>
      let (tasks, st) := launch clock targets (store sv) in
      match Promise_all tasks with
      | Some results =>
          let (timestamp, st') := new_Date_toISOString clock st in
          (Some (healthgraph_json (Healthgraph timestamp results)),
           Server st' (graphs sv) (queries sv))
      | None => (None, Server st (graphs sv ++ [tasks]) (queries sv))
      end
  | probe_settles id i r =>
      match graphs sv !! id with
      | Some tasks =>
          match tasks !! i with
          | Some (Probe _ _ None) =>
              let (tasks', st) := settle clock (λ _, r) tasks i (store sv) in
              match Promise_all tasks' with
              | Some results =>
                  let (timestamp, st') := new_Date_toISOString clock st in
                  (Some (healthgraph_json (Healthgraph timestamp results)),
                   Server st' (<[id := tasks']> (graphs sv)) (queries sv))
              | None =>
                  (None, Server st (<[id := tasks']> (graphs sv)) (queries sv))
              end
          | _ => (None, sv)
          end
      | None => (None, sv)
      end
  end.

(** The server after the events of a list, in order. *)
Definition serve (events : list event) (sv : server) : server :=
  foldl (λ sv ev, (step ev sv).2) sv events.

(** What each event of a list is answered with, if it makes a handler
    answer. *)
Fixpoint answers (events : list event) (sv : server)
  : list (option response) :=
  match events with
  | [] => []
  | ev :: later => (step ev sv).1 :: answers later (step ev sv).2
  end.

(** The entries a turn of the event loop stores in the ring: none when a
    request arrives; one when the request a handler awaits settles, unless
    the handler of [/obs/query] throws before it calls [addLog]. *)
Definition stored (ev : event) (sv : server) : list LogEntry.t :=
  let now := clock (ticks (store sv)) in
  match ev with
  | query_settles id r =>
      match queries sv !! id with
      | Some (Some q) =>
          match param_toString q, r with
          | Return text, Resolved _ =>
              [LogEntry.mk now (js "info") (js "gateway")
                 (js "PromQL query executed: " ++ QUOTE :: text ++ [QUOTE])]
          | Return text, Rejected message =>
              [LogEntry.mk now (js "error") (js "gateway")
                 (js "PromQL query failed: " ++ QUOTE :: text
                    ++ QUOTE :: js " - " ++ message)]
          | Throw _, _ => []
          end
      | _ => []
      end
  | probe_settles id i r =>
      match graphs sv !! id with
      | Some tasks =>
          match tasks !! i with
          | Some (Probe svc start None) =>
              [stamp (clock (ticks (store sv) + 1)%nat)
                 (report_of svc start now r)]
          | _ => []
          end
      | None => []
      end
  | _ => []
  end.


End Handlers.

(** The server when it starts to listen. *)
Definition listening (clock : nat → Z) : server :=
  Server (listening_store clock) [] [].

(** A store in which [logsBuffer] denotes an array. *)
Definition allocated (s : state) : Prop := is_Some (heap s !! logsBuffer).

(** An entry as [addLog] builds it. *)
Definition stamped (e : LogEntry.t) : Prop := ∃ ts entry, e = stamp ts entry.

(** [s'] comes after [s]: the ring has only been appended to through
    [addLog], and every other array of [s] is still there, unchanged. *)
Definition evolves (s s' : state) : Prop :=
  allocated s →
  allocated s'
  ∧ (∀ r, r ≠ logsBuffer → r ∈ dom (heap s) → heap s' !! r = heap s !! r)
  ∧ ∃ logs, ring s' = foldl ring_add (ring s) logs ∧ Forall stamped logs.

(** ** The users service *)

(** [process.env.SERVICE_NAME || "users-service"] *)
Definition SERVICE_NAME (env : option jsstring) : jsstring :=
  or_string env (js "users-service").

(** The class [[a-zA-Z0-9_]], on code units. *)
Definition word_unit (c : N) : bool :=
  ((97 <=? c) && (c <=? 122) || (65 <=? c) && (c <=? 90)
   || (48 <=? c) && (c <=? 57) || (c =? 95))%N.

(** [s.replace(/[^a-zA-Z0-9_]/g, "_")] *)
Definition replace_non_word (s : jsstring) : jsstring :=
  List.map (λ c, if word_unit c then c else 95%N) s.

(** [(SERVICE_NAME || "service").replace(/[^a-zA-Z0-9_]/g, "_") + "_"] *)
Definition METRIC_PREFIX (env : option jsstring) : jsstring :=
  replace_non_word (or_string (Some (SERVICE_NAME env)) (js "service"))
  ++ js "_".

(** ** The dashboard *)

(** [v.key], for a key that is no index and that no built-in prototype
    defines, as are the keys the dashboard reads. *)
Definition get_prop (v : value) (key : jsstring) : completion value :=
  match v with
  | Undefined | Null => Throw TypeError
  | Obj props => Return (assoc key props)
  | Bool _ | Num _ | Str _ | Arr _ => Return Undefined
  end.

(** [v[1]] on a value that is neither [null] nor [undefined]. *)
Definition get_index1 (v : value) : value :=
  match v with
  | Arr items => default Undefined (items !! 1%nat)
  | Str s => match s !! 1%nat with Some c => Str [c] | None => Undefined end
  | Obj props => assoc (js "1") props
  | Undefined | Null | Bool _ | Num _ => Undefined
  end.

(** What [?.] and [??] test. *)
Definition nullish (v : value) : bool :=
  match v with
  | Undefined | Null => true
  | _ => false
  end.

(** [v === s] for a string literal [s]. *)
Definition is_string (v : value) (s : jsstring) : bool :=
  match v with
  | Str t => bool_decide (t = s)
  | _ => false
  end.

(** [Object.entries(v)] on a value that is neither [null] nor [undefined];
    the properties of an object come in the order [props] lists them. *)
Definition Object_entries (v : value) : list (jsstring * value) :=
  match v with
  | Obj props => props
  | Arr items => imap (λ i x, (Number_toString (Z.of_nat i), x)) items
  | Str s => imap (λ i c, (Number_toString (Z.of_nat i), Str [c])) s
  | Undefined | Null | Bool _ | Num _ => []
  end.

(** [pieces.join(sep)] *)
Fixpoint join_with (sep : jsstring) (pieces : list jsstring) : jsstring :=
  match pieces with
  | [] => []
  | [piece] => piece
  | piece :: rest => piece ++ sep ++ join_with sep rest
  end.

(** [xs.map((x, index) => f(index, x))] for a callback that may throw. *)
Definition array_mapi {A B} (f : nat → A → completion B) (xs : list A)
  : completion (list B) :=
  array_map (λ ix, f ix.1 ix.2) (imap (λ i x, (i, x)) xs).

Definition and_then {A B} (c : completion A) (k : A → completion B)
  : completion B :=
  match c with
  | Return a => k a
  | Throw e => Throw e
  end.

Module Point.
Record t := mk { idx : nat; value : float; metric : jsstring }.
End Point.

Section Dashboard.

(** The built-ins of which only the interface is used: the text of a
    number, [parseFloat] on a string, and [String.prototype.toUpperCase]. *)
Variable float_text : float → jsstring.
Variable parseFloat_text : jsstring → float.
Variable toUpperCase : jsstring → jsstring.

(** The conversion to a string that a template literal and [parseFloat]
    apply to a decoded value. An array is the texts of its elements joined
    by commas, [null] and [undefined] elements giving the empty text; an
    object is ["[object Object]"], but the conversion throws on an object
    that has a property [toString] of its own. *)
Fixpoint ToString (v : value) : completion jsstring :=
  match v with
  | Undefined => Return (js "undefined")
  | Null => Return (js "null")
  | Bool b => Return (if b then js "true" else js "false")
  | Num x => Return (float_text x)
  | Str s => Return s
  | Arr items =>
      match array_map
              (λ item, if nullish item then Return [] else ToString item)
              items with
      | Return texts => Return (join COMMA texts)
      | Throw e => Throw e
      end
  | Obj props =>
      if own_toString props then Throw TypeError
      else Return (js "[object Object]")
  end.

(** [parseFloat(v)] *)
Definition parseFloat (v : value) : completion float :=
  and_then (ToString v) (λ text, Return (parseFloat_text text)).

(** The callback of [vector.map] in [chartData]. *)
Definition chart_point (index : nat) (item : value) : completion Point.t :=
  and_then (get_prop item (js "value")) (λ sample,
  let second := if nullish sample then Undefined else get_index1 sample in
  let text := if nullish second then Str (js "0") else second in
  and_then (parseFloat text) (λ value,
  and_then (get_prop item (js "metric")) (λ labels,
  let labels := if nullish labels then Obj [] else labels in
  and_then
    (array_map
       (λ kv, and_then (ToString kv.2) (λ text, Return (kv.1 ++ EQUALS :: text)))
       (Object_entries labels)) (λ pieces,
  Return (Point.mk index value (join_with (js ", ") pieces)))))).

(** [chartData], from the last answer to a PromQL query ([null] before
    there is one). *)
Definition chartData (promResult : value) : completion (list Point.t) :=
  if negb (truthy promResult) then Return [] else
  and_then (get_prop promResult (js "status")) (λ status,
  if negb (is_string status (js "success")) then Return [] else
  and_then (get_prop promResult (js "data")) (λ data,
  if negb (truthy data) then Return [] else
  and_then (get_prop data (js "resultType")) (λ resultType,
  if negb (is_string resultType (js "vector")) then Return [] else
  and_then (get_prop data (js "result")) (λ vector,
  match vector with
  | Arr items => array_mapi chart_point items
  | _ => Throw TypeError
  end)))).

(** [svc.status.toUpperCase()], in the list of services. *)
Definition status_label (status : value) : completion jsstring :=
  match status with
  | Str s => Return (toUpperCase s)
  | _ => Throw TypeError
  end.

End Dashboard.

(** A value that the conversion to a string does not throw on. *)
Fixpoint stringifies (v : value) : bool :=
  match v with
  | Arr items => forallb stringifies items
  | Obj props => negb (own_toString props)
  | Undefined | Null | Bool _ | Num _ | Str _ => true
  end.

(** The property [key] of a value that is neither [null] nor
    [undefined]. *)
Definition own_prop (v : value) (key : jsstring) : value :=
  match v with
  | Obj props => assoc key props
  | _ => Undefined
  end.

(** What the callback of [chartData] hands to [parseFloat] for a sample,
    and the labels it lists. *)
Definition sample_text (item : value) : value :=
  let sample := own_prop item (js "value") in
  let second := if nullish sample then Undefined else get_index1 sample in
  if nullish second then Str (js "0") else second.

Definition sample_labels (item : value) : list (jsstring * value) :=
  let labels := own_prop item (js "metric") in
  Object_entries (if nullish labels then Obj [] else labels).

(** A sample the chart can draw: it is neither [null] nor [undefined], and
    neither its value nor any of its labels is, or holds, an object with a
    [toString] property of its own. *)
Definition drawable (item : value) : bool :=
  negb (nullish item)
  && stringifies (sample_text item)
  && forallb (λ kv, stringifies kv.2) (sample_labels item).

(** A PromQL answer of the shape the chart draws: status ["success"] and
    data of type ["vector"]; [samples] is what its [result] holds. *)
Definition instant_vector (promResult samples : value) : Prop :=
  ∃ props data,
    promResult = Obj props
    ∧ assoc (js "status") props = Str (js "success")
    ∧ assoc (js "data") props = Obj data
    ∧ assoc (js "resultType") data = Str (js "vector")
    ∧ assoc (js "result") data = samples.

(** * Properties *)

(** ** Splitting and joining *)

Section Split.

Variable sep : N.

Lemma split_cons_inv (s : jsstring) :
  ∃ piece pieces, split sep s = piece :: pieces.
Proof.
  destruct s as [|c s]; simpl; [by eauto|].
  destruct (N.eqb c sep); [by eauto|].
  destruct (split sep s); by eauto.
Qed.

(** Without a separator there is nothing to split. *)
Lemma split_free (s : jsstring) : sep ∉ s → split sep s = [s].
Proof.
  induction s as [|c s IH]; intros Hfree; [done|].
  apply not_elem_of_cons in Hfree as [Hc Hs]. simpl.
  destruct (N.eqb_spec c sep) as [->|_]; [done|].
  by rewrite (IH Hs).
Qed.

(** A separator cuts the string into independent halves. *)
Lemma split_app (a b : jsstring) :
  split sep (a ++ sep :: b) = split sep a ++ split sep b.
Proof.
  induction a as [|c a IH]; simpl.
  - by rewrite N.eqb_refl.
  - destruct (N.eqb c sep); [by rewrite IH|].
    rewrite IH. by destruct (split_cons_inv a) as (h & t & ->).
Qed.

Lemma split_single_free (s piece : jsstring) :
  split sep s = [piece] → sep ∉ s.
Proof.
  revert piece. induction s as [|c s IH]; intros piece; simpl.
  - intros _. apply not_elem_of_nil.
  - destruct (N.eqb_spec c sep) as [->|Hne].
    + destruct (split_cons_inv s) as (h & t & ->). discriminate.
    + destruct (split_cons_inv s) as (h & [|h' t] & E); rewrite E;
        [|discriminate].
      intros _. apply not_elem_of_cons. split; [congruence|]. by eapply IH.
Qed.

Lemma split_join_cons (piece : jsstring) (pieces : list jsstring) :
  split sep (join sep (piece :: pieces))
  = split sep piece ++ concat (List.map (split sep) pieces).
Proof.
  revert piece. induction pieces as [|q pieces IH]; intros piece.
  - simpl. by rewrite app_nil_r.
  - change (join sep (piece :: q :: pieces))
      with (piece ++ sep :: join sep (q :: pieces)).
    by rewrite split_app, IH.
Qed.

(** Joining separator-free pieces and splitting again gives them back. *)
Lemma split_join (pieces : list jsstring) :
  pieces ≠ [] → Forall (λ piece, sep ∉ piece) pieces →
  split sep (join sep pieces) = pieces.
Proof.
  destruct pieces as [|piece pieces]; [done|]. intros _ Hfree.
  rewrite split_join_cons.
  apply Forall_cons in Hfree as [Hp Hps]. rewrite (split_free _ Hp). simpl.
  f_equal. induction Hps as [|q qs Hq _ IH]; [done|].
  simpl. by rewrite (split_free _ Hq), IH.
Qed.

End Split.

(** ** Target registry *)

Lemma Boolean_str_true (s : jsstring) : Boolean_str s = true ↔ s ≠ [].
Proof.
  unfold Boolean_str. simpl. rewrite negb_true_iff, bool_decide_eq_false. done.
Qed.

(** An entry makes the callback throw exactly when it has no [=]. *)
Lemma parse_pair_throws (pair : jsstring) :
  parse_pair pair = Throw TypeError ↔ EQUALS ∉ pair.
Proof.
  unfold parse_pair. split.
  - destruct (split EQUALS pair) as [|name [|url rest]] eqn:E; try done.
    + destruct (split_cons_inv EQUALS pair) as (h & t & ?). congruence.
    + intros _. by eapply split_single_free.
  - intros Hfree. by rewrite (split_free _ _ Hfree).
Qed.

Lemma parse_pair_sep (name url : jsstring) :
  EQUALS ∉ name →
  parse_pair (name ++ EQUALS :: url)
  = Return (Target.mk (trim name)
              (trim (List.hd [] (split EQUALS url)))).
Proof.
  intros Hn. unfold parse_pair. rewrite split_app, (split_free _ _ Hn).
  by destruct (split_cons_inv EQUALS url) as (h & t & ->).
Qed.

Lemma array_map_throws {A B} (f : A → completion B) (xs : list A) e :
  array_map f xs = Throw e ↔ Exists (λ x, f x = Throw e) xs.
Proof.
  induction xs as [|x xs IH]; simpl.
  - split; [done | by intros ?%Exists_nil].
  - rewrite Exists_cons. destruct (f x) as [y|e'] eqn:Ex.
    + destruct (array_map f xs) as [ys|e''].
      * split; [done|]. intros [?|H]; [done|]. by apply IH in H.
      * split; [|intros _; by destruct e, e''].
        intros _. right. apply IH. by destruct e, e''.
    + destruct e, e'. split; intros _; [by left | done].
Qed.

(** The registry as a function of the comma-separated pieces. *)
Lemma parsedTargets_join (entries : list jsstring) :
  parsedTargets (join COMMA entries)
  = array_map parse_pair
      (List.filter Boolean_str (concat (List.map (split COMMA) entries))).
Proof.
  unfold parsedTargets. destruct entries as [|entry entries]; [done|].
  by rewrite split_join_cons.
Qed.

Example parse_default :
  parsedTargets (SERVICE_TARGETS None)
  = Return [Target.mk (js "users") (js "http://users-service:4001")].
Proof. vm_compute. reflexivity. Qed.

Example parse_two :
  parsedTargets (js " users = http://u:1 ,,orders=http://o:2=x=y,")
  = Return [Target.mk (js "users") (js "http://u:1");
            Target.mk (js "orders") (js "http://o:2")].
Proof. vm_compute. reflexivity. Qed.

Example parse_no_sep : parsedTargets (js "users") = Throw TypeError.
Proof. vm_compute. reflexivity. Qed.

Lemma concat_split_free (entries : list jsstring) :
  Forall (λ entry, COMMA ∉ entry) entries →
  concat (List.map (split COMMA) entries) = entries.
Proof.
  induction 1 as [|entry entries Hfree _ IH]; [done|].
  simpl. by rewrite (split_free _ _ Hfree), IH.
Qed.

Lemma parse_rendered (pairs : list (jsstring * jsstring)) :
  Forall (λ p, (EQUALS ∉ p.1) ∧ (EQUALS ∉ p.2)) pairs →
  array_map parse_pair
    (List.filter Boolean_str (List.map (λ p, entry_of p.1 p.2) pairs))
  = Return (List.map (λ p, Target.mk (trim p.1) (trim p.2)) pairs).
Proof.
  induction 1 as [|[name url] pairs [Hn Hu] _ IH]; [done|].
  simpl in *. unfold entry_of at 1.
  replace (Boolean_str (name ++ EQUALS :: url)) with true
    by (symmetry; apply Boolean_str_true; by destruct name).
  simpl. unfold entry_of at 1.
  rewrite (parse_pair_sep _ _ Hn), (split_free _ _ Hu). simpl.
  by rewrite IH.
Qed.

(** C4 (as the code has it): [parsedTargets] throws exactly when some
    non-empty entry of the raw string has no [=]; it validates nothing
    else, so an entry whose name or URL is empty after trimming is accepted.
    When every entry is [name=url] with neither part containing [,] or [=],
    the result is one target per entry, in input order, with name and URL
    trimmed. *)
Theorem parsedTargets_contract (raw : jsstring) :
  (parsedTargets raw = Throw TypeError
   ↔ ∃ entry, entry ∈ split COMMA raw ∧ entry ≠ [] ∧ EQUALS ∉ entry)
  ∧ (∀ pairs : list (jsstring * jsstring),
       Forall (λ p, ((COMMA ∉ p.1) ∧ (EQUALS ∉ p.1))
                    ∧ ((COMMA ∉ p.2) ∧ (EQUALS ∉ p.2))) pairs →
       raw = join COMMA (List.map (λ p, entry_of p.1 p.2) pairs) →
       parsedTargets raw
       = Return (List.map (λ p, Target.mk (trim p.1) (trim p.2)) pairs)).
Proof.
  split.
  - unfold parsedTargets. rewrite array_map_throws, Exists_exists.
    split.
    + intros (entry & Hin & Hthrow). exists entry.
      apply list_elem_of_In, List.filter_In in Hin as [Hin Hne].
      split_and!; [by apply list_elem_of_In | by apply Boolean_str_true
                  | by apply parse_pair_throws].
    + intros (entry & Hin & Hne & Hfree). exists entry. split.
      * apply list_elem_of_In, List.filter_In. split;
          [by apply list_elem_of_In | by apply Boolean_str_true].
      * by apply parse_pair_throws.
  - intros pairs Hwf ->. rewrite parsedTargets_join, concat_split_free.
    + apply parse_rendered. eapply Forall_impl; [exact Hwf|].
      by intros p [[_ ?] [_ ?]].
    + apply Forall_forall. intros entry Hin.
      apply list_elem_of_In, List.in_map_iff in Hin as ([name url] & <- & Hin).
      apply list_elem_of_In in Hin.
      rewrite Forall_forall in Hwf. destruct (Hwf _ Hin) as [[Hn _] [Hu _]].
      unfold entry_of. simpl in *.
      rewrite elem_of_app, elem_of_cons. intros [?|[?|?]]; done.
Qed.

Lemma parsedTargets_contract_witness :
  parsedTargets (js " users = http://u:1 ,=http://o:2")
  = Return [Target.mk (js "users") (js "http://u:1");
            Target.mk [] (js "http://o:2")].
Proof.
  apply (proj2 (parsedTargets_contract _)
           [(js " users ", js " http://u:1 "); ([], js "http://o:2")]);
    [|reflexivity].
  repeat first [apply Forall_nil | apply Forall_cons; split | split];
    compute_done.
Defined.

(** C4, refuted as it is written: an entry whose name is empty after
    trimming, and one whose URL is, are both accepted. *)
Lemma parsedTargets_accepts_blank_fields :
  (blank_field (js " =http://u:1")
   ∧ parsedTargets (js " =http://u:1")
     = Return [Target.mk [] (js "http://u:1")])
  ∧ (blank_field (js "users= ")
     ∧ parsedTargets (js "users= ") = Return [Target.mk (js "users") []]).
Proof. vm_compute. by auto. Qed.

(** C9: an empty entry, as a doubled, leading or trailing comma produces,
    yields no target and no error: the registry is the one parsed from the
    string without it. *)
Theorem parsedTargets_skips_empty (before after : list jsstring) :
  parsedTargets (join COMMA (before ++ [] :: after))
  = parsedTargets (join COMMA (before ++ after)).
Proof.
  rewrite !parsedTargets_join. f_equal.
  rewrite !List.map_app, !concat_app. simpl.
  by rewrite !List.filter_app.
Qed.

(** C10: when the URL part of an entry contains a [=], the target's
    [baseUrl] is the (trimmed) text between the first and the second [=];
    what follows the second [=] is dropped. *)
Theorem parse_pair_second_equals (name url rest : jsstring) :
  EQUALS ∉ name → EQUALS ∉ url →
  parse_pair (name ++ EQUALS :: url ++ EQUALS :: rest)
  = Return (Target.mk (trim name) (trim url))
  ∧ (COMMA ∉ name ++ url ++ rest →
     parsedTargets (name ++ EQUALS :: url ++ EQUALS :: rest)
     = Return [Target.mk (trim name) (trim url)]).
Proof.
  intros Hn Hu.
  assert (parse_pair (name ++ EQUALS :: url ++ EQUALS :: rest)
          = Return (Target.mk (trim name) (trim url))) as Hpair.
  { rewrite (parse_pair_sep _ _ Hn), split_app, (split_free _ _ Hu). done. }
  split; [done|]. intros Hc. unfold parsedTargets.
  rewrite split_free.
  - simpl.
    replace (Boolean_str (name ++ EQUALS :: url ++ EQUALS :: rest)) with true
      by (symmetry; apply Boolean_str_true; by destruct name).
    simpl. by rewrite Hpair.
  - rewrite !elem_of_app in Hc.
    rewrite elem_of_app, elem_of_cons, elem_of_app, elem_of_cons.
    intros [?|[?|[?|[?|?]]]]; try discriminate; apply Hc; by auto.
Qed.

Lemma parse_pair_second_equals_witness :
  parse_pair (js "orders = http://o:2/?a=b=c")
  = Return (Target.mk (js "orders") (js "http://o:2/?a"))
  ∧ parsedTargets (js "orders = http://o:2/?a=b=c")
    = Return [Target.mk (js "orders") (js "http://o:2/?a")].
Proof.
  assert (EQUALS ∉ js "orders ") as Hn by compute_done.
  assert (EQUALS ∉ js " http://o:2/?a") as Hu by compute_done.
  destruct (parse_pair_second_equals (js "orders ") (js " http://o:2/?a")
              (js "b=c") Hn Hu) as [Hpair Hall].
  split; [exact Hpair|]. apply Hall. compute_done.
Defined.

(** ** Log ring *)

Lemma deref_insert h r (buf : list LogEntry.t) : deref (<[r := buf]> h) r = buf.
Proof. unfold deref. by rewrite lookup_insert_eq. Qed.

Lemma deref_insert_ne h r r' (buf : list LogEntry.t) :
  r ≠ r' → deref (<[r := buf]> h) r' = deref h r'.
Proof. intros. unfold deref. by rewrite lookup_insert_ne. Qed.

Lemma ring_insert h t buf : ring (State (<[logsBuffer := buf]> h) t) = buf.
Proof. apply deref_insert. Qed.

#[local] Instance same_elsewhere_refl : Reflexive same_elsewhere.
Proof. by intros s r _. Qed.

#[local] Instance same_elsewhere_trans : Transitive same_elsewhere.
Proof. intros s1 s2 s3 H12 H23 r Hr. by rewrite H23, H12. Qed.

Lemma same_elsewhere_insert s buf t :
  same_elsewhere s (State (<[logsBuffer := buf]> (heap s)) t).
Proof. intros r Hr. simpl. by rewrite lookup_insert_ne. Qed.

(** One call of [addLog], as a function of the state. *)
Lemma addLog_run clock entry s :
  addLog clock entry s
  = (tt, State (<[logsBuffer :=
                    ring_add (ring s) (stamp (clock (ticks s)) entry)]> (heap s))
           (S (ticks s))).
Proof.
  unfold addLog, bind, new_Date_toISOString, Date_now, array_push,
    array_length, array_shift, ret, ring_add, ring, stamp. simpl.
  rewrite deref_insert.
  destruct (MAX_LOGS <? _)%nat; [|done].
  simpl. by rewrite deref_insert, insert_insert_eq.
Qed.

Lemma ring_add_length buf e :
  (length buf ≤ MAX_LOGS)%nat → (length (ring_add buf e) ≤ MAX_LOGS)%nat.
Proof.
  intros Hlen. unfold ring_add.
  destruct (Nat.ltb_spec MAX_LOGS (length (buf ++ [e]))) as [Hgt|Hle]; [|lia].
  destruct buf as [|oldest kept]; simpl in *; [lia|].
  rewrite length_app. simpl. lia.
Qed.

Lemma ring_add_room buf e :
  (length buf < MAX_LOGS)%nat → ring_add buf e = buf ++ [e].
Proof.
  intros Hlen. unfold ring_add.
  destruct (Nat.ltb_spec MAX_LOGS (length (buf ++ [e]))) as [Hgt|Hle]; [|done].
  rewrite length_app in Hgt. simpl in Hgt. lia.
Qed.

Lemma ring_add_full oldest kept e :
  length (oldest :: kept) = MAX_LOGS →
  ring_add (oldest :: kept) e = kept ++ [e].
Proof.
  intros Hlen. unfold ring_add.
  destruct (Nat.ltb_spec MAX_LOGS (length ((oldest :: kept) ++ [e])))
    as [Hgt|Hle]; [done|].
  rewrite length_app in Hle. simpl in Hle, Hlen. lia.
Qed.

(** The entry just stored is the last one, whatever was evicted. *)
Lemma ring_add_last buf e : ∃ kept, ring_add buf e = kept ++ [e].
Proof.
  unfold ring_add. destruct buf as [|oldest kept]; [by exists []|].
  destruct (_ <? _)%nat; [by exists kept | by exists (oldest :: kept)].
Qed.

Lemma ring_add_drop buf e :
  (length buf ≤ MAX_LOGS)%nat →
  ring_add buf e = drop (length buf + 1 - MAX_LOGS) (buf ++ [e]).
Proof.
  intros Hlen. destruct (decide (length buf = MAX_LOGS)) as [Hfull|Hroom].
  - destruct buf as [|oldest kept]; [done|].
    rewrite (ring_add_full _ _ _ Hfull), Hfull.
    by replace (MAX_LOGS + 1 - MAX_LOGS)%nat with 1%nat by lia.
  - rewrite ring_add_room by lia.
    by replace (length buf + 1 - MAX_LOGS)%nat with 0%nat by lia.
Qed.

(** Appending to a ring within capacity keeps the newest [MAX_LOGS]. *)
Lemma foldl_ring_add buf es :
  (length buf ≤ MAX_LOGS)%nat →
  foldl ring_add buf es
  = drop (length buf + length es - MAX_LOGS) (buf ++ es).
Proof.
  revert buf. induction es as [|e es IH]; intros buf Hlen.
  - simpl. rewrite app_nil_r.
    by replace (length buf + 0 - MAX_LOGS)%nat with 0%nat by lia.
  - simpl. rewrite IH by by apply ring_add_length.
    rewrite (ring_add_drop _ _ Hlen), length_drop, length_app. simpl.
    rewrite (cons_middle e buf es), app_assoc.
    destruct (decide (length buf = MAX_LOGS)) as [Hfull|Hroom].
    + replace (length buf + 1 - MAX_LOGS)%nat with 1%nat by lia.
      rewrite <- (drop_app_le _ es 1) by (rewrite length_app; simpl; lia).
      rewrite drop_drop. f_equal. lia.
    + replace (length buf + 1 - MAX_LOGS)%nat with 0%nat by lia.
      simpl. f_equal. lia.
Qed.

Lemma foldl_ring_add_length buf es :
  (length buf ≤ MAX_LOGS)%nat →
  (length (foldl ring_add buf es) ≤ MAX_LOGS)%nat.
Proof.
  revert buf. induction es as [|e es IH]; intros buf Hlen; [done|].
  simpl. by apply IH, ring_add_length.
Qed.

Lemma stamps_cons clock t entry entries :
  stamps clock t (entry :: entries)
  = stamp (clock t) entry :: stamps clock (S t) entries.
Proof.
  unfold stamps. simpl. rewrite Nat.add_0_r. f_equal.
  apply imap_ext. intros i x _. simpl. f_equal. f_equal. lia.
Qed.

Lemma stamps_length clock t entries :
  length (stamps clock t entries) = length entries.
Proof. apply length_imap. Qed.

(** A run of [addLog] calls, as a function of the state. *)
Lemma addLogs_run clock entries s :
  let s' := (addLogs clock entries s).2 in
  ring s' = foldl ring_add (ring s) (stamps clock (ticks s) entries)
  ∧ ticks s' = (ticks s + length entries)%nat
  ∧ same_elsewhere s s'
  ∧ (is_Some (heap s !! logsBuffer) → is_Some (heap s' !! logsBuffer)).
Proof.
  revert s. induction entries as [|entry entries IH]; intros s; cbv zeta.
  - simpl. split_and!; [done | lia | done | done].
  - rewrite stamps_cons. cbn [addLogs]. unfold bind. rewrite addLog_run.
    set (s1 := State _ _). destruct (IH s1) as (Hring & Hticks & Hframe & Hdom).
    cbn [foldl length]. split_and!.
    + rewrite Hring. unfold s1 at 1 2. by rewrite ring_insert.
    + rewrite Hticks. simpl. lia.
    + etrans; [|exact Hframe]. apply same_elsewhere_insert.
    + intros _. apply Hdom. simpl. by rewrite lookup_insert_eq.
Qed.

(** [GET /obs/logs], as a function of the state. *)
Lemma obs_logs_run s :
  let items := fresh (dom (heap s)) in
  obs_logs s
  = (items, State (<[items := rev (ring s)]> (heap s)) (ticks s))
  ∧ items ∉ dom (heap s).
Proof.
  simpl. split; [|apply is_fresh].
  unfold obs_logs, bind, array_spread, array_reverse. simpl.
  by rewrite deref_insert, insert_insert_eq.
Qed.

Lemma boot_ring : ring boot = [] ∧ is_Some (heap boot !! logsBuffer).
Proof. split; [done|]. by exists []. Qed.

Lemma addLogs_boot clock entries :
  let s := (addLogs clock entries boot).2 in
  ring s = drop (length entries - MAX_LOGS) (stamps clock 0 entries)
  ∧ (length (ring s) ≤ MAX_LOGS)%nat
  ∧ ticks s = length entries
  ∧ is_Some (heap s !! logsBuffer).
Proof.
  destruct (addLogs_run clock entries boot) as (Hring & Hticks & _ & Hdom).
  destruct boot_ring as [Hboot Hsome]. cbv zeta. split_and!.
  - rewrite Hring, Hboot, foldl_ring_add by (simpl; lia).
    by rewrite stamps_length.
  - rewrite Hring, Hboot. apply foldl_ring_add_length. simpl. lia.
  - by rewrite Hticks.
  - by apply Hdom.
Qed.

(** C3: after any sequence of [addLog] calls the ring holds at most
    [MAX_LOGS] = 200 entries: the newest ones, in insertion order. A further
    call appends at the tail when there is room; on a full ring it drops the
    oldest entry, and only that one, and keeps the others in order. Reading
    the log through [/obs/logs] leaves the ring as it is. *)
Theorem ring_bounded_fifo (clock : nat → Z) (entries : list Fields.t)
    (entry : Fields.t) :
  let s := (addLogs clock entries boot).2 in
  let s' := (addLog clock entry s).2 in
  let e := stamp (clock (ticks s)) entry in
  MAX_LOGS = 200%nat
  ∧ (length (ring s) ≤ MAX_LOGS)%nat
  ∧ ring s = drop (length entries - MAX_LOGS) (stamps clock 0 entries)
  ∧ ((length (ring s) < MAX_LOGS)%nat → ring s' = ring s ++ [e])
  ∧ ((length (ring s) = MAX_LOGS)%nat →
     ∃ oldest kept, ring s = oldest :: kept ∧ ring s' = kept ++ [e])
  ∧ ring (obs_logs s).2 = ring s.
Proof.
  intros s s' e.
  destruct (addLogs_boot clock entries) as (Hring & Hlen & _ & Hsome).
  fold s in Hring, Hlen, Hsome.
  assert (ring s' = ring_add (ring s) e) as Hstep.
  { unfold s'. rewrite addLog_run. apply ring_insert. }
  split_and!; [done | done | done | | |].
  - intros Hroom. by rewrite Hstep, ring_add_room.
  - intros Hfull. destruct (ring s) as [|oldest kept] eqn:E; [done|].
    exists oldest, kept. split; [done|]. by rewrite Hstep, ring_add_full.
  - destruct (obs_logs_run s) as [-> Hfresh]. unfold ring. simpl.
    apply deref_insert_ne. intros Heq. apply Hfresh. rewrite Heq.
    by apply elem_of_dom.
Qed.

(** C7: [addLog] returns for every argument, whichever properties it
    carries: the entry it stores is the last of the ring, it bears the
    clock reading of the call, its level is the given one or ["info"], its
    service the given one or ["gateway"], its message the given one or the
    empty string. *)
Theorem addLog_defaults (clock : nat → Z) (entry : Fields.t) (s : state) :
  ∃ s' kept e,
    addLog clock entry s = (tt, s')
    ∧ ring s' = kept ++ [e]
    ∧ LogEntry.ts e = clock (ticks s)
    ∧ defaulted (Fields.level entry) (js "info") (LogEntry.level e)
    ∧ defaulted (Fields.service entry) (js "gateway") (LogEntry.service e)
    ∧ defaulted (Fields.msg entry) (js "") (LogEntry.msg e).
Proof.
  destruct (ring_add_last (ring s) (stamp (clock (ticks s)) entry))
    as [kept Hkept].
  rewrite addLog_run. eexists _, kept, _.
  split; [done|]. rewrite ring_insert. split_and!; [done | done | | |].
  - by destruct entry as [[[|??]|] ? ?].
  - by destruct entry as [? [[|??]|] ?].
  - by destruct entry as [? ? [[|??]|]].
Qed.

(** C5: after [K ≤ MAX_LOGS] calls of [addLog] on the empty ring,
    [/obs/logs] answers with the [K] stored entries, newest first. The
    array it answers with is a new one, distinct from [logsBuffer]: building
    it leaves the ring as it was, later calls of [addLog] do not change it,
    and overwriting it does not change the ring. *)
Theorem obs_logs_snapshot (clock : nat → Z) (entries : list Fields.t) :
  (length entries ≤ MAX_LOGS)%nat →
  let s := (addLogs clock entries boot).2 in
  let items := (obs_logs s).1 in
  let s1 := (obs_logs s).2 in
  deref (heap s1) items = rev (stamps clock 0 entries)
  ∧ length (deref (heap s1) items) = length entries
  ∧ items ≠ logsBuffer
  ∧ ring s1 = ring s
  ∧ (∀ later, deref (heap (addLogs clock later s1).2) items
              = deref (heap s1) items)
  ∧ (∀ contents,
       ring (State (<[items := contents]> (heap s1)) (ticks s1)) = ring s1).
Proof.
  intros HK s.
  destruct (addLogs_boot clock entries) as (Hring & _ & _ & Hsome).
  fold s in Hring, Hsome.
  destruct (obs_logs_run s) as [-> Hfresh]. simpl.
  set (items := fresh (dom (heap s))) in *.
  assert (items ≠ logsBuffer) as Hne.
  { intros Heq. apply Hfresh. rewrite Heq. by apply elem_of_dom. }
  replace (length entries - MAX_LOGS)%nat with 0%nat in Hring by lia.
  rewrite drop_0 in Hring.
  assert (deref (<[items := rev (ring s)]> (heap s)) items
          = rev (stamps clock 0 entries)) as Hitems.
  { by rewrite deref_insert, Hring. }
  split_and!.
  - done.
  - by rewrite Hitems, length_rev, stamps_length.
  - done.
  - unfold ring. simpl. by apply deref_insert_ne.
  - intros later.
    destruct (addLogs_run clock later
                (State (<[items := rev (ring s)]> (heap s)) (ticks s)))
      as (_ & _ & Hframe & _).
    unfold deref. by rewrite (Hframe items Hne).
  - intros contents. unfold ring. simpl.
    rewrite deref_insert_ne by done. done.
Qed.

Lemma obs_logs_snapshot_witness :
  let clock := λ n : nat, 1000 + Z.of_nat n in
  let entries := [Fields.mk None None (Some (js "x"));
                  Fields.mk (Some (js "error")) (Some (js "users")) (Some (js "y"))] in
  let s := (addLogs clock entries boot).2 in
  deref (heap (obs_logs s).2) (obs_logs s).1
  = [LogEntry.mk 1001 (js "error") (js "users") (js "y");
     LogEntry.mk 1000 (js "info") (js "gateway") (js "x")].
Proof.
  intros clock entries s.
  assert (length entries ≤ MAX_LOGS)%nat as HK by (vm_compute; lia).
  exact (proj1 (obs_logs_snapshot clock entries HK)).
Defined.

(** ** Health aggregator *)

Section Healthgraph.

Variable clock : nat → Z.
Variable net : nat → axios_result.

(** The callback after its [await], as a function of the state. *)
Lemma probe_resume_run svc start r s :
  probe_resume clock svc start r s
  = (outcome_of svc start (clock (ticks s)) (clock (ticks s + 2)%nat) r,
     State (<[logsBuffer :=
                ring_add (ring s)
                  (stamp (clock (ticks s + 1)%nat)
                     (report_of svc start (clock (ticks s)) r))]> (heap s))
       (ticks s + 3)%nat).
Proof.
  destruct r as [data|message]; unfold probe_resume, bind, Date_now,
    new_Date_toISOString, ret; simpl; rewrite addLog_run; simpl;
    unfold ring; simpl;
    by replace (S (ticks s)) with (ticks s + 1)%nat by lia;
       replace (S (S (ticks s + 1))) with (ticks s + 3)%nat by lia;
       replace (S (ticks s + 1)) with (ticks s + 2)%nat by lia.
Qed.

(** Starting the probes reads the clock once per target, in registry
    order, and touches nothing else. *)
Lemma launch_run targets s :
  launch clock targets s
  = (imap (λ i svc, Probe svc (started_at clock (ticks s) i) None) targets,
     State (heap s) (ticks s + length targets)%nat).
Proof.
  revert s. induction targets as [|svc targets IH]; intros s.
  - simpl. unfold ret. destruct s. simpl. do 2 f_equal. lia.
  - cbn [launch]. unfold bind, probe_begin, Date_now, ret. simpl.
    rewrite IH. simpl. unfold started_at. rewrite Nat.add_0_r.
    f_equal; [f_equal | f_equal; lia].
    apply imap_ext. intros i x _. simpl. do 2 f_equal. lia.
Qed.

Lemma event_loop_snoc schedule i tasks s :
  event_loop clock net (schedule ++ [i]) tasks s
  = let (tasks', s') := event_loop clock net schedule tasks s in
    settle clock net tasks' i s'.
Proof.
  revert tasks s. induction schedule as [|j schedule IH]; intros tasks s.
  - simpl. unfold bind, ret. by destruct (settle clock net tasks i s).
  - simpl. unfold bind. destruct (settle clock net tasks j s) as [tasks1 s1].
    apply IH.
Qed.

Variable targets : list Target.t.
Variable s0 : state.

Lemma event_loop_run schedule :
  NoDup schedule → Forall (λ i, i < length targets)%nat schedule →
  let started := launched clock targets s0 in
  let (tasks, s) := event_loop clock net schedule started.1 started.2 in
  tasks_ok clock net targets s0 schedule tasks
  ∧ ticks s = (ticks s0 + length targets + 3 * length schedule)%nat
  ∧ ring s = foldl ring_add (ring s0) (logs_of clock net targets s0 schedule)
  ∧ same_elsewhere s0 s.
Proof.
  induction schedule as [|i schedule IH] using rev_ind;
    intros Hnodup Hrange; cbv zeta in *.
  - unfold launched. rewrite launch_run. simpl. split_and!.
    + split; [by rewrite length_imap|]. intros i svc Hi. split.
      * intros _. by rewrite list_lookup_imap, Hi.
      * by intros k ?.
    + lia.
    + done.
    + done.
  - apply NoDup_app in Hnodup as (Hnodup & Hfresh & _).
    apply Forall_app in Hrange as [Hrange Hi].
    rewrite Forall_singleton in Hi.
    assert (i ∉ schedule) as Hnew by (intros ?; eapply Hfresh; [done|by left]).
    rewrite event_loop_snoc.
    destruct (event_loop clock net schedule _ _) as [tasks s].
    destruct (IH Hnodup Hrange) as ([Hlen Htasks] & Hticks & Hring & Hframe).
    destruct (lookup_lt_is_Some_2 targets i Hi) as [svc Hsvc].
    destruct (Htasks i svc Hsvc) as [Hpending _].
    unfold settle. rewrite (Hpending Hnew). unfold bind, ret.
    rewrite probe_resume_run. split_and!.
    + split; [by rewrite length_insert|]. intros j svc' Hj.
      destruct (decide (j = i)) as [->|Hne].
      * assert (svc' = svc) as -> by congruence. split.
        { intros Hout. exfalso. apply Hout, elem_of_app. right. by left. }
        intros k Hk. rewrite list_lookup_insert_eq by lia.
        assert (k = length schedule) as ->.
        { apply lookup_app_Some in Hk as [Hk|[Hge Hk]].
          - exfalso. apply Hnew. by eapply list_elem_of_lookup_2.
          - apply list_lookup_singleton_Some in Hk as [Hk _]. lia. }
        unfold resumed_at, checked_at. rewrite Hticks. do 4 f_equal; lia.
      * rewrite list_lookup_insert_ne by done.
        destruct (Htasks j svc' Hj) as [Hp Hs]. split.
        { intros Hout. apply Hp. intros ?. apply Hout, elem_of_app. by left. }
        intros k Hk. apply Hs.
        apply lookup_app_Some in Hk as [Hk|[_ Hk]]; [done|].
        apply list_lookup_singleton_Some in Hk as [_ ?]. congruence.
    + simpl. rewrite Hticks, length_app. simpl. lia.
    + rewrite ring_insert, Hring. unfold logs_of.
      rewrite imap_app, foldl_app. simpl. rewrite Nat.add_0_r.
      unfold target_at. rewrite Hsvc. simpl.
      unfold logged_at, resumed_at. rewrite Hticks.
      do 3 f_equal.
    + etrans; [exact Hframe|]. apply same_elsewhere_insert.
Qed.

Lemma schedule_fair schedule :
  schedule ≡ₚ seq 0 (length targets) →
  NoDup schedule
  ∧ Forall (λ i, i < length targets)%nat schedule
  ∧ length schedule = length targets
  ∧ ∀ i, (i < length targets)%nat → ∃ k, schedule !! k = Some i.
Proof.
  intros Hperm. split_and!.
  - rewrite Hperm. apply NoDup_seq.
  - apply Forall_forall. intros i Hi. rewrite Hperm in Hi.
    apply elem_of_seq in Hi. lia.
  - by rewrite Hperm, length_seq.
  - intros i Hi. apply list_elem_of_lookup_1. rewrite Hperm.
    apply elem_of_seq. lia.
Qed.

(** One run of the handler in which every request settles once. *)
Lemma obs_healthgraph_run schedule :
  schedule ≡ₚ seq 0 (length targets) →
  ∃ results s,
    obs_healthgraph clock targets net schedule s0
    = (Some (Healthgraph (clock (ticks s0 + 4 * length targets)%nat) results),
       s)
    ∧ length results = length targets
    ∧ (∀ k i svc, schedule !! k = Some i → targets !! i = Some svc →
         results !! i
         = Some (outcome_of svc (started_at clock (ticks s0) i)
                   (resumed_at clock (ticks s0) (length targets) k)
                   (checked_at clock (ticks s0) (length targets) k) (net i)))
    ∧ ring s = foldl ring_add (ring s0) (logs_of clock net targets s0 schedule)
    ∧ same_elsewhere s0 s.
Proof.
  intros Hperm.
  destruct (schedule_fair _ Hperm) as (Hnodup & Hrange & Hlen & Hall).
  pose proof (event_loop_run schedule Hnodup Hrange) as Hloop.
  unfold obs_healthgraph, bind. unfold launched in Hloop.
  destruct (launch clock targets s0) as [tasks1 s1]. simpl in Hloop.
  destruct (event_loop clock net schedule tasks1 s1) as [tasks s].
  destruct Hloop as ([Htlen Htasks] & Hticks & Hring & Hframe).
  assert (is_Some (Promise_all tasks)) as [results Hresults].
  { apply mapM_is_Some, Forall_lookup. intros i t Ht.
    assert (i < length targets)%nat as Hi
      by (rewrite <- Htlen; by eapply lookup_lt_Some).
    destruct (lookup_lt_is_Some_2 targets i Hi) as [svc Hsvc].
    destruct (Hall i Hi) as [k Hk].
    destruct (Htasks i svc Hsvc) as [_ Hs].
    rewrite (Hs k Hk) in Ht. injection Ht as <-. by eexists. }
  rewrite Hresults. unfold new_Date_toISOString, Date_now, ret.
  eexists results, _. split_and!.
  - do 3 f_equal. rewrite Hticks, Hlen. f_equal. lia.
  - apply mapM_Some, Forall2_length in Hresults. congruence.
  - intros k i svc Hk Hsvc. destruct (Htasks i svc Hsvc) as [_ Hs].
    apply mapM_Some in Hresults.
    destruct (Forall2_lookup_l _ _ _ _ _ Hresults (Hs k Hk)) as (o & -> & Ho).
    simpl in Ho. congruence.
  - done.
  - done.
Qed.

Lemma logs_of_length schedule :
  length (logs_of clock net targets s0 schedule) = length schedule.
Proof. apply length_imap. Qed.

Lemma logs_of_lookup schedule k i svc :
  schedule !! k = Some i → targets !! i = Some svc →
  logs_of clock net targets s0 schedule !! k
  = Some (stamp (logged_at clock (ticks s0) (length targets) k)
            (report_of svc (started_at clock (ticks s0) i)
               (resumed_at clock (ticks s0) (length targets) k) (net i))).
Proof.
  intros Hk Hsvc. unfold logs_of, target_at.
  rewrite list_lookup_imap, Hk. simpl. by rewrite Hsvc.
Qed.

End Healthgraph.

Lemma schedule_position (schedule : list nat) (N i : nat) :
  schedule ≡ₚ seq 0 N → (i < N)%nat →
  ∃ k, schedule !! k = Some i ∧ ∀ k', schedule !! k' = Some i → k' = k.
Proof.
  intros Hperm Hi.
  assert (NoDup schedule) as Hnodup by (rewrite Hperm; apply NoDup_seq).
  assert (i ∈ schedule) as [k Hk]%list_elem_of_lookup_1
    by (rewrite Hperm; apply elem_of_seq; lia).
  exists k. split; [done|]. intros k' Hk'.
  by eapply NoDup_lookup.
Qed.

(** Names the position [k] at which probe [i] settles. *)
Ltac settles_at Hperm i k Hk :=
  let Huniq := fresh "Huniq" in
  destruct (schedule_position _ _ i Hperm) as (k & Hk & Huniq);
  [by eapply lookup_lt_Some|].

Lemma outcome_of_name svc start now lastCheck r :
  HealthOutcome.name (outcome_of svc start now lastCheck r) = Target.name svc
  ∧ HealthOutcome.url (outcome_of svc start now lastCheck r)
    = Target.baseUrl svc.
Proof. by destruct r. Qed.

Lemma or_string_given (name dflt : jsstring) :
  or_string (Some name) dflt = if decide (name = []) then dflt else name.
Proof. by destruct name. Qed.

(** A body without a [status] property has [undefined] for it. *)
Lemma assoc_absent key props : key ∉ props.*1 → assoc key props = Undefined.
Proof.
  induction props as [|[k v] props IH]; [done|]. simpl.
  rewrite not_elem_of_cons. intros [Hk Hrest].
  rewrite bool_decide_eq_false_2 by congruence. by apply IH.
Qed.

(** Example runs: a clock that advances 7 ms between two readings, and the
    store once the module has loaded. *)
Definition clock7 (n : nat) : Z := 1000 + 7 * Z.of_nat n.
Definition loaded : state := (startup clock7 boot).2.

(** C2: when every request settles, whatever the order in which they do,
    the handler answers with exactly one outcome per target, and the
    outcome at each position is the outcome of the probe of the target at
    that position of the registry: it bears that target's name and URL, it
    is decided by how that target's own request settled ([net i]), it
    measures from that probe's own start, and only its clock readings
    depend on the position [k] at which the request settled. *)
Theorem healthgraph_registry_order (clock : nat → Z) (net : nat → axios_result)
    (targets : list Target.t) (s : state) (schedule : list nat) :
  schedule ≡ₚ seq 0 (length targets) →
  ∃ body s',
    obs_healthgraph clock targets net schedule s = (Some body, s')
    ∧ length (services body) = length targets
    ∧ HealthOutcome.name <$> services body = Target.name <$> targets
    ∧ HealthOutcome.url <$> services body = Target.baseUrl <$> targets
    ∧ ∀ i svc, targets !! i = Some svc →
        ∃ k, schedule !! k = Some i
          ∧ let latency := resumed_at clock (ticks s) (length targets) k
                           - started_at clock (ticks s) i in
            let lastCheck := checked_at clock (ticks s) (length targets) k in
            services body !! i
            = Some
                match net i with
                | Resolved data =>
                    HealthOutcome.mk (Target.name svc) (Target.baseUrl svc)
                      (or_else (optional_status data) (Str (js "unknown")))
                      latency None lastCheck
                | Rejected message =>
                    HealthOutcome.mk (Target.name svc) (Target.baseUrl svc)
                      (Str (js "down")) latency (Some message) lastCheck
                end.
Proof.
  intros Hperm.
  destruct (obs_healthgraph_run clock net targets s schedule Hperm)
    as (results & s' & Hrun & Hlen & Hat & _).
  eexists _, s'. split; [exact Hrun|]. simpl. split; [done|].
  assert (∀ i svc, targets !! i = Some svc →
            ∃ o, results !! i = Some o
                 ∧ HealthOutcome.name o = Target.name svc
                 ∧ HealthOutcome.url o = Target.baseUrl svc) as Hpos.
  { intros i svc Hsvc.
    settles_at Hperm i k Hk.
    eexists. split; [by apply (Hat k)|]. apply outcome_of_name. }
  split_and!.
  - apply list_eq; intros i; rewrite !list_lookup_fmap.
    destruct (targets !! i) as [svc|] eqn:Hsvc; simpl.
    + destruct (Hpos i svc Hsvc) as (o & -> & Hname & _). simpl. congruence.
    + rewrite lookup_ge_None_2; [done|].
      apply lookup_ge_None_1 in Hsvc. lia.
  - apply list_eq; intros i; rewrite !list_lookup_fmap.
    destruct (targets !! i) as [svc|] eqn:Hsvc; simpl.
    + destruct (Hpos i svc Hsvc) as (o & -> & _ & Hurl). simpl. congruence.
    + rewrite lookup_ge_None_2; [done|].
      apply lookup_ge_None_1 in Hsvc. lia.
  - intros i svc Hsvc. settles_at Hperm i k Hk.
    exists k. split; [done|]. rewrite (Hat k i svc Hk Hsvc).
    by destruct (net i).
Qed.

(** Two targets with the same name and URL, the first healthy, the second
    not, and the second to settle first: the outcomes come in the order of
    the registry, [ok] before [down]. *)
Lemma healthgraph_registry_order_witness :
  let twin := Target.mk (js "a") (js "http://a") in
  let net := λ i : nat, match i with
                        | O => Resolved (Obj [(js "status", Str (js "ok"))])
                        | _ => Rejected (js "timeout of 2000ms exceeded")
                        end in
  ∃ body s',
    obs_healthgraph clock7 [twin; twin] net [1; 0]%nat loaded = (Some body, s')
    ∧ HealthOutcome.name <$> services body = [js "a"; js "a"]
    ∧ HealthOutcome.status <$> services body
      = [Str (js "ok"); Str (js "down")].
Proof.
  intros twin net.
  destruct (healthgraph_registry_order clock7 net [twin; twin] loaded
              [1; 0]%nat)
    as (body & s' & Hrun & Hlen & Hnames & _ & Hat).
  { simpl. apply perm_swap. }
  exists body, s'. split; [exact Hrun|]. split; [exact Hnames|].
  destruct (Hat 0%nat twin eq_refl) as (k0 & _ & H0).
  destruct (Hat 1%nat twin eq_refl) as (k1 & _ & H1).
  cbv zeta in H0, H1.
  destruct (services body) as [|o0 [|o1 [|o2 rest]]]; try discriminate Hlen.
  simpl in H0, H1. injection H0 as ->. injection H1 as ->. reflexivity.
Defined.

Lemma stamp_report_rejected svc start now ts message :
  stamp ts (report_of svc start now (Rejected message))
  = LogEntry.mk ts (js "error")
      (if decide (Target.name svc = []) then js "gateway" else Target.name svc)
      (js "Healthcheck failed (" ++ Number_toString (now - start)
         ++ js "ms): " ++ message).
Proof.
  unfold stamp, report_of.
  cbn [Fields.level Fields.service Fields.msg].
  by rewrite (or_string_given (Target.name svc)).
Qed.

Lemma stamp_report_resolved svc start now ts data :
  stamp ts (report_of svc start now (Resolved data))
  = LogEntry.mk ts (js "info")
      (if decide (Target.name svc = []) then js "gateway" else Target.name svc)
      (js "Healthcheck ok (" ++ Number_toString (now - start) ++ js "ms)").
Proof.
  unfold stamp, report_of.
  cbn [Fields.level Fields.service Fields.msg].
  by rewrite (or_string_given (Target.name svc)).
Qed.

Lemma stamp_report_level svc start now ts r :
  LogEntry.level (stamp ts (report_of svc start now r))
  = match r with Resolved _ => js "info" | Rejected _ => js "error" end.
Proof. by destruct r. Qed.

(** C8 (as the code has it): a run of the handler over [N] targets in
    which every request settles calls [addLog] exactly [N] times, once for
    each target in the order in which the requests settle, with level
    ["info"] for a request that resolved, whatever its body, and ["error"]
    for a request that was rejected; while the ring has room these are [N]
    more entries at its tail. No other array of the store changes. *)
Theorem healthgraph_logs_once (clock : nat → Z) (net : nat → axios_result)
    (targets : list Target.t) (s : state) (schedule : list nat) :
  schedule ≡ₚ seq 0 (length targets) →
  ∃ body s' logs,
    obs_healthgraph clock targets net schedule s = (Some body, s')
    ∧ length logs = length targets
    ∧ ring s' = foldl ring_add (ring s) logs
    ∧ ((length (ring s) + length targets ≤ MAX_LOGS)%nat →
       ring s' = ring s ++ logs)
    ∧ (∀ i svc, targets !! i = Some svc →
         ∃ k e, schedule !! k = Some i
                ∧ (∀ k', schedule !! k' = Some i → k' = k)
                ∧ logs !! k = Some e
                ∧ LogEntry.level e
                  = match net i with
                    | Resolved _ => js "info"
                    | Rejected _ => js "error"
                    end)
    ∧ same_elsewhere s s'.
Proof.
  intros Hperm.
  destruct (obs_healthgraph_run clock net targets s schedule Hperm)
    as (results & s' & Hrun & _ & _ & Hring & Hframe).
  destruct (schedule_fair targets schedule Hperm) as (_ & _ & Hlen & _).
  eexists _, s', (logs_of clock net targets s schedule).
  split; [exact Hrun|]. split_and!.
  - by rewrite logs_of_length.
  - done.
  - intros Hroom. rewrite Hring, foldl_ring_add by lia.
    rewrite logs_of_length, Hlen.
    by replace (length (ring s) + length targets - MAX_LOGS)%nat
      with 0%nat by lia.
  - intros i svc Hsvc.
    settles_at Hperm i k Hk.
    eexists k, _. split_and!; [done | done | by eapply logs_of_lookup |].
    apply stamp_report_level.
  - done.
Qed.

Lemma healthgraph_logs_once_witness :
  let targets := [Target.mk (js "a") (js "http://a");
                  Target.mk (js "b") (js "http://b")] in
  let net := λ i : nat, match i with
                        | O => Resolved (Obj [(js "status", Str (js "ok"))])
                        | _ => Rejected (js "timeout of 2000ms exceeded")
                        end in
  ∃ body s' logs,
    obs_healthgraph clock7 targets net [1; 0]%nat loaded = (Some body, s')
    ∧ length logs = 2%nat
    ∧ ring s' = ring loaded ++ logs.
Proof.
  intros targets net.
  destruct (healthgraph_logs_once clock7 net targets loaded [1; 0]%nat)
    as (body & s' & logs & Hrun & Hlen & _ & Hroom & _).
  { simpl. apply perm_swap. }
  exists body, s', logs. split; [exact Hrun|]. split; [exact Hlen|].
  apply Hroom. vm_compute. lia.
Defined.

(** C8, refuted as it is written: a 2xx response with a body that cannot be
    decoded (axios hands it over as a string) is a failure in the sense of
    the claim, yet the handler takes the [try] branch: the entry it stores
    has level ["info"], not ["error"], and the outcome has no error. *)
Lemma healthgraph_undecoded_body_logged_as_info :
  let target := Target.mk (js "a") (js "http://a") in
  let undecoded := λ _ : nat, Resolved (Str (js "<html>")) in
  let run := obs_healthgraph clock7 [target] undecoded [0%nat] loaded in
  run.1
  = Some (Healthgraph 1035
            [HealthOutcome.mk (js "a") (js "http://a") (Str (js "unknown"))
               7 None 1028])
  ∧ ring run.2
    = ring loaded
      ++ [LogEntry.mk 1021 (js "info") (js "a") (js "Healthcheck ok (7ms)")]
  ∧ js "info" ≠ js "error".
Proof. vm_compute. by split_and!. Qed.

(** C1 (as the code has it): when every request settles, the handler
    answers, with one outcome per target, whatever mix of requests was
    rejected. A rejected request becomes the outcome with status ["down"],
    the rejection's message as [error] and the time from the probe's start
    to its resumption as [latencyMs], and an ["error"] entry is stored for
    it, filed under the target's name, or under ["gateway"] when that name
    is empty. A resolved request is reported as resolved whatever happens to
    the others, and a probe has its outcome as soon as its own request has
    settled, however many of the others are still pending. *)
Theorem healthgraph_contains_failures (clock : nat → Z)
    (net : nat → axios_result) (targets : list Target.t) (s : state)
    (schedule : list nat) :
  schedule ≡ₚ seq 0 (length targets) →
  ∃ body s' logs,
    obs_healthgraph clock targets net schedule s = (Some body, s')
    ∧ length (services body) = length targets
    ∧ length logs = length targets
    ∧ ring s' = foldl ring_add (ring s) logs
    ∧ (∀ i svc message,
         targets !! i = Some svc → net i = Rejected message →
         ∃ k, schedule !! k = Some i
           ∧ let latency := resumed_at clock (ticks s) (length targets) k
                            - started_at clock (ticks s) i in
             services body !! i
             = Some (HealthOutcome.mk (Target.name svc) (Target.baseUrl svc)
                       (Str (js "down")) latency (Some message)
                       (checked_at clock (ticks s) (length targets) k))
             ∧ logs !! k
               = Some (LogEntry.mk
                         (logged_at clock (ticks s) (length targets) k)
                         (js "error")
                         (if decide (Target.name svc = []) then js "gateway"
                          else Target.name svc)
                         (js "Healthcheck failed (" ++ Number_toString latency
                            ++ js "ms): " ++ message)))
    ∧ (∀ i svc data,
         targets !! i = Some svc → net i = Resolved data →
         ∃ o, services body !! i = Some o
              ∧ HealthOutcome.error o = None
              ∧ HealthOutcome.status o
                = or_else (optional_status data) (Str (js "unknown")))
    ∧ (∀ early i,
         NoDup early → Forall (λ j, j < length targets)%nat early →
         i ∈ early →
         let started := launch clock targets s in
         ∃ p o, (event_loop clock net early started.1 started.2).1 !! i
                = Some p
                ∧ settled p = Some o).
Proof.
  intros Hperm.
  destruct (obs_healthgraph_run clock net targets s schedule Hperm)
    as (results & s' & Hrun & Hlen & Hat & Hring & _).
  destruct (schedule_fair targets schedule Hperm) as (_ & _ & Hslen & _).
  eexists _, s', (logs_of clock net targets s schedule).
  split; [exact Hrun|]. simpl. split_and!.
  - done.
  - by rewrite logs_of_length.
  - done.
  - intros i svc message Hsvc Hnet.
    settles_at Hperm i k Hk.
    exists k. split; [done|]. split.
    + rewrite (Hat k i svc Hk Hsvc), Hnet. done.
    + rewrite (logs_of_lookup _ _ _ _ _ _ _ _ Hk Hsvc), Hnet.
      by rewrite stamp_report_rejected.
  - intros i svc data Hsvc Hnet.
    settles_at Hperm i k Hk.
    eexists. split; [by apply (Hat k)|]. by rewrite Hnet.
  - intros early i Hnodup Hrange Hi. simpl.
    pose proof (event_loop_run clock net targets s early Hnodup Hrange)
      as Hloop.
    unfold launched in Hloop.
    destruct (event_loop clock net early _ _) as [tasks s1].
    destruct Hloop as ([_ Htasks] & _).
    apply list_elem_of_lookup_1 in Hi as [k Hk].
    rewrite Forall_lookup in Hrange.
    destruct (lookup_lt_is_Some_2 targets i (Hrange k i Hk)) as [svc Hsvc].
    destruct (Htasks i svc Hsvc) as [_ Hs].
    simpl. rewrite (Hs k Hk). by eexists _, _.
Qed.

Lemma healthgraph_contains_failures_witness :
  let targets := [Target.mk (js "a") (js "http://a");
                  Target.mk (js "b") (js "http://b")] in
  let net := λ i : nat, match i with
                        | O => Resolved (Obj [(js "status", Str (js "ok"))])
                        | _ => Rejected (js "timeout of 2000ms exceeded")
                        end in
  ∃ body s' k,
    obs_healthgraph clock7 targets net [1; 0]%nat loaded = (Some body, s')
    ∧ [1; 0]%nat !! k = Some 1%nat
    ∧ services body !! 1%nat
      = Some (HealthOutcome.mk (js "b") (js "http://b") (Str (js "down"))
                (resumed_at clock7 (ticks loaded) 2 k
                 - started_at clock7 (ticks loaded) 1)
                (Some (js "timeout of 2000ms exceeded"))
                (checked_at clock7 (ticks loaded) 2 k)).
Proof.
  intros targets net.
  destruct (healthgraph_contains_failures clock7 net targets loaded
              [1; 0]%nat)
    as (body & s' & logs & Hrun & _ & _ & _ & Hrejected & _ & _).
  { simpl. apply perm_swap. }
  destruct (Hrejected 1%nat (Target.mk (js "b") (js "http://b"))
              (js "timeout of 2000ms exceeded") eq_refl eq_refl)
    as (k & Hk & Hout & _).
  exists body, s', k. split; [exact Hrun|]. split; [exact Hk|]. exact Hout.
Defined.

(** C1, refuted as it is written: the registry parsed from ["=http://u:1"]
    holds a target whose name is empty; when its probe is rejected the
    ["error"] entry is filed under ["gateway"], not under that name.
    Besides, the handler never looks at a body to decide on a failure: a
    response that resolves with a string for its data (what axios hands
    over when it cannot decode a 2xx body) is reported with status
    ["unknown"] and no error, not as ["down"]. *)
Lemma healthgraph_blank_name_logged_as_gateway :
  let target := Target.mk (js "") (js "http://u:1") in
  let net := λ _ : nat, Rejected (js "timeout of 2000ms exceeded") in
  let s' := (obs_healthgraph clock7 [target] net [0%nat] loaded).2 in
  let undecoded := λ _ : nat, Resolved (Str (js "<html>")) in
  (parsedTargets (js "=http://u:1") = Return [target]
   ∧ ring s'
     = ring loaded
       ++ [LogEntry.mk 1021 (js "error") (js "gateway")
             (js "Healthcheck failed (7ms): timeout of 2000ms exceeded")]
   ∧ js "gateway" ≠ Target.name target)
  ∧ (obs_healthgraph clock7 [target] undecoded [0%nat] loaded).1
    = Some (Healthgraph 1035
              [HealthOutcome.mk (js "") (js "http://u:1")
                 (Str (js "unknown")) 7 None 1028]).
Proof. vm_compute. by split_and!. Qed.

(** C6 (as the code has it): a resolved request becomes the outcome whose
    status is the [status] property of the body when that value is truthy,
    and ["unknown"] when the body has no such property or its value is
    falsy (the empty string, [0], [null], [false]); [latencyMs] is the time
    from the probe's start to its resumption, and one ["info"] entry is
    stored for it, filed under the target's name, or under ["gateway"] when
    that name is empty. *)
Theorem healthgraph_reports_success (clock : nat → Z)
    (net : nat → axios_result) (targets : list Target.t) (s : state)
    (schedule : list nat) :
  schedule ≡ₚ seq 0 (length targets) →
  ∃ body s' logs,
    obs_healthgraph clock targets net schedule s = (Some body, s')
    ∧ length logs = length targets
    ∧ ring s' = foldl ring_add (ring s) logs
    ∧ ∀ i svc data,
        targets !! i = Some svc → net i = Resolved data →
        ∃ k, schedule !! k = Some i
          ∧ let latency := resumed_at clock (ticks s) (length targets) k
                           - started_at clock (ticks s) i in
            let reported := optional_status data in
            services body !! i
            = Some (HealthOutcome.mk (Target.name svc) (Target.baseUrl svc)
                      (if truthy reported then reported
                       else Str (js "unknown"))
                      latency None
                      (checked_at clock (ticks s) (length targets) k))
            ∧ (∀ props, data = Obj props → js "status" ∉ props.*1 →
               reported = Undefined)
            ∧ logs !! k
              = Some (LogEntry.mk
                        (logged_at clock (ticks s) (length targets) k)
                        (js "info")
                        (if decide (Target.name svc = []) then js "gateway"
                         else Target.name svc)
                        (js "Healthcheck ok (" ++ Number_toString latency
                           ++ js "ms)")).
Proof.
  intros Hperm.
  destruct (obs_healthgraph_run clock net targets s schedule Hperm)
    as (results & s' & Hrun & _ & Hat & Hring & _).
  destruct (schedule_fair targets schedule Hperm) as (_ & _ & Hslen & _).
  eexists _, s', (logs_of clock net targets s schedule).
  split; [exact Hrun|]. simpl. split_and!.
  - by rewrite logs_of_length.
  - done.
  - intros i svc data Hsvc Hnet.
    settles_at Hperm i k Hk.
    exists k. split; [done|]. split_and!.
    + rewrite (Hat k i svc Hk Hsvc), Hnet. done.
    + intros props -> Habsent. by apply assoc_absent.
    + rewrite (logs_of_lookup _ _ _ _ _ _ _ _ Hk Hsvc), Hnet.
      by rewrite stamp_report_resolved.
Qed.

Lemma healthgraph_reports_success_witness :
  let targets := [Target.mk (js "a") (js "http://a");
                  Target.mk (js "b") (js "http://b")] in
  let net := λ i : nat, match i with
                        | O => Resolved (Obj [(js "service", Str (js "a"));
                                              (js "status", Str (js "ok"))])
                        | _ => Rejected (js "timeout of 2000ms exceeded")
                        end in
  ∃ body s' k,
    obs_healthgraph clock7 targets net [1; 0]%nat loaded = (Some body, s')
    ∧ [1; 0]%nat !! k = Some 0%nat
    ∧ services body !! 0%nat
      = Some (HealthOutcome.mk (js "a") (js "http://a") (Str (js "ok"))
                (resumed_at clock7 (ticks loaded) 2 k
                 - started_at clock7 (ticks loaded) 0)
                None (checked_at clock7 (ticks loaded) 2 k)).
Proof.
  intros targets net.
  destruct (healthgraph_reports_success clock7 net targets loaded [1; 0]%nat)
    as (body & s' & logs & Hrun & _ & _ & Hresolved).
  { simpl. apply perm_swap. }
  destruct (Hresolved 0%nat (Target.mk (js "a") (js "http://a"))
              (Obj [(js "service", Str (js "a")); (js "status", Str (js "ok"))])
              eq_refl eq_refl)
    as (k & Hk & Hout & _).
  exists body, s', k. split; [exact Hrun|]. split; [exact Hk|]. exact Hout.
Defined.

(** C6, refuted as it is written: a 2xx response whose body is
    [{"status": ""}] has a [status] property, yet the outcome's status is
    ["unknown"], not the property's value. *)
Lemma healthgraph_falsy_status_is_unknown :
  let target := Target.mk (js "a") (js "http://a") in
  let data := Obj [(js "status", Str (js ""))] in
  let net := λ _ : nat, Resolved data in
  optional_status data = Str (js "")
  ∧ (obs_healthgraph clock7 [target] net [0%nat] loaded).1
    = Some (Healthgraph 1035
              [HealthOutcome.mk (js "a") (js "http://a") (Str (js "unknown"))
                 7 None 1028])
  ∧ Str (js "unknown") ≠ Str (js "").
Proof. vm_compute. by split_and!. Qed.

(** * Further properties of the code *)

(** ** [trim] *)

Lemma trimStart_suffix (s : jsstring) :
  ∃ blanks, s = blanks ++ trimStart s
            ∧ Forall (λ c, isWhiteSpace c = true) blanks.
Proof.
  induction s as [|c s (blanks & Hs & Hblanks)]; [by exists []|].
  simpl. destruct (isWhiteSpace c) eqn:Hc.
  - exists (c :: blanks). split; [simpl; congruence | by constructor].
  - by exists [].
Qed.

Lemma trimStart_head (s : jsstring) c :
  head (trimStart s) = Some c → isWhiteSpace c = false.
Proof.
  induction s as [|d s IH]; [done|]. simpl.
  destruct (isWhiteSpace d) eqn:Hd; [done|]. simpl. congruence.
Qed.

Lemma trimStart_id (s : jsstring) :
  (∀ c, head s = Some c → isWhiteSpace c = false) → trimStart s = s.
Proof.
  destruct s as [|c s]; [done|]. intros Hhead. simpl.
  by rewrite (Hhead c).
Qed.

Lemma last_rev_head {A} (l : list A) : last (rev l) = head l.
Proof. destruct l as [|x l]; [done|]. simpl. by rewrite last_snoc. Qed.

Lemma head_rev_last {A} (l : list A) : head (rev l) = last l.
Proof. by rewrite <- last_rev_head, rev_involutive. Qed.

(** What [trim] returns has white space at neither end. *)
Lemma trim_trimmed (s : jsstring) : trimmed (trim s).
Proof.
  unfold trim, trimEnd. set (u := trimStart s).
  destruct (trimStart_suffix (rev u)) as (blanks & Hrev & _).
  split; intros c Hc.
  - assert (u = rev (trimStart (rev u)) ++ rev blanks) as Hu.
    { rewrite <- rev_app_distr, <- Hrev. by rewrite rev_involutive. }
    apply (trimStart_head s). fold u. rewrite Hu.
    destruct (rev (trimStart (rev u))); [done|]. exact Hc.
  - rewrite last_rev_head in Hc. by eapply trimStart_head.
Qed.

(** A string with white space at neither end is returned as it is. *)
Lemma trim_id (s : jsstring) : trimmed s → trim s = s.
Proof.
  intros [Hhead Hlast]. unfold trim, trimEnd.
  rewrite (trimStart_id s Hhead), trimStart_id, rev_involutive; [done|].
  intros c Hc. apply Hlast. by rewrite <- head_rev_last.
Qed.

Lemma trim_idempotent (s : jsstring) : trim (trim s) = trim s.
Proof. apply trim_id, trim_trimmed. Qed.

(** ** Target registry, continued *)

(** What the registry holds when the parse does not throw. *)
Lemma parsedTargets_returns (raw : jsstring) (targets : list Target.t) :
  parsedTargets raw = Return targets →
  targets
  = List.map (λ entry, Target.mk (trim (name_part entry)) (trim (url_part entry)))
      (List.filter Boolean_str (split COMMA raw)).
Proof.
  unfold parsedTargets.
  generalize (List.filter Boolean_str (split COMMA raw)). intros entries.
  revert targets. induction entries as [|entry entries IH]; intros targets.
  - simpl. congruence.
  - simpl. unfold parse_pair at 1, name_part, url_part.
    destruct (split EQUALS entry) as [|name [|url rest]]; try done.
    destruct (array_map parse_pair entries) as [ts|]; [|done].
    intros [= <-]. simpl. f_equal. by apply IH.
Qed.

(** X1: the name and the URL of every target of the registry have white
    space at neither end, whatever the raw string was. *)
Theorem parsedTargets_trimmed (raw : jsstring) (targets : list Target.t) :
  parsedTargets raw = Return targets →
  Forall (λ svc, trimmed (Target.name svc) ∧ trimmed (Target.baseUrl svc))
    targets.
Proof.
  intros ->%parsedTargets_returns. apply Forall_forall. intros svc Hsvc.
  apply list_elem_of_In, List.in_map_iff in Hsvc as (entry & <- & _).
  split; apply trim_trimmed.
Qed.

Lemma parsedTargets_trimmed_witness :
  Forall (λ svc, trimmed (Target.name svc) ∧ trimmed (Target.baseUrl svc))
    [Target.mk (js "users") (js "http://u:1");
     Target.mk (js "orders") (js "http://o:2")].
Proof.
  apply (parsedTargets_trimmed
           (js " users = http://u:1 ,,orders=http://o:2=x=y,")).
  vm_compute. reflexivity.
Defined.

(** X2: when the parse does not throw, the registry has one target for
    each non-empty entry of the raw string, at the entry's position, made of
    the entry's first two pieces. Nothing is merged or dropped: entries that
    repeat a name give targets that repeat it. *)
Theorem parsedTargets_entrywise (raw : jsstring) (targets : list Target.t) :
  parsedTargets raw = Return targets →
  let entries := List.filter Boolean_str (split COMMA raw) in
  length targets = length entries
  ∧ ∀ i entry, entries !! i = Some entry →
      targets !! i
      = Some (Target.mk (trim (name_part entry)) (trim (url_part entry))).
Proof.
  intros ->%parsedTargets_returns. simpl. split.
  - by rewrite length_map.
  - intros i entry Hentry.
    change (List.map ?f ?l) with (f <$> l).
    by rewrite list_lookup_fmap, Hentry.
Qed.

Lemma parsedTargets_entrywise_witness :
  length [Target.mk (js "a") (js "http://x"); Target.mk (js "a") (js "http://y")]
  = length (List.filter Boolean_str (split COMMA (js "a=http://x,a=http://y"))).
Proof.
  apply (parsedTargets_entrywise (js "a=http://x,a=http://y")).
  vm_compute. reflexivity.
Defined.

(** X3: writing a registry out as [name=url,name=url,...] and parsing it
    gives the registry back, provided no name or URL contains [,] or [=] or
    has white space at either end. *)
Theorem parsedTargets_render (targets : list Target.t) :
  Forall (λ svc, (trimmed (Target.name svc) ∧ trimmed (Target.baseUrl svc))
                 ∧ ((COMMA ∉ Target.name svc) ∧ (EQUALS ∉ Target.name svc))
                 ∧ ((COMMA ∉ Target.baseUrl svc)
                    ∧ (EQUALS ∉ Target.baseUrl svc))) targets →
  parsedTargets (render targets) = Return targets.
Proof.
  intros Hok. unfold render. rewrite parsedTargets_join, concat_split_free.
  - induction Hok as [|[name url] targets Hsvc _ IH]; [done|].
    destruct Hsvc as ([Hname Hurl] & [_ Hn] & [_ Hu]). simpl in *.
    unfold entry_of at 1.
    replace (Boolean_str (name ++ EQUALS :: url)) with true
      by (symmetry; apply Boolean_str_true; by destruct name).
    simpl. unfold entry_of at 1.
    rewrite (parse_pair_sep _ _ Hn), (split_free _ _ Hu). simpl.
    by rewrite IH, (trim_id _ Hname), (trim_id _ Hurl).
  - apply Forall_forall. intros entry Hin.
    apply list_elem_of_In, List.in_map_iff in Hin as ([name url] & <- & Hin).
    apply list_elem_of_In in Hin. rewrite Forall_forall in Hok.
    destruct (Hok _ Hin) as (_ & [Hn _] & [Hu _]).
    unfold entry_of. simpl in *.
    rewrite elem_of_app, elem_of_cons. intros [?|[?|?]]; done.
Qed.

Lemma parsedTargets_render_witness :
  parsedTargets (js "users=http://u:1,orders=http://o:2")
  = Return [Target.mk (js "users") (js "http://u:1");
            Target.mk (js "orders") (js "http://o:2")].
Proof.
  apply (parsedTargets_render
           [Target.mk (js "users") (js "http://u:1");
            Target.mk (js "orders") (js "http://o:2")]).
  repeat first [apply Forall_nil | apply Forall_cons; split | split];
    try compute_done;
    by intros c [= <-].
Defined.

(** ** Log ring, continued *)

(** X4: after any number of [addLog] calls on the empty ring, [/obs/logs]
    answers with the newest [MAX_LOGS] stored entries (all of them when there
    are fewer), newest first. *)
Theorem obs_logs_newest (clock : nat → Z) (entries : list Fields.t) :
  let s := (addLogs clock entries boot).2 in
  deref (heap (obs_logs s).2) (obs_logs s).1
  = take MAX_LOGS (rev (stamps clock 0 entries)).
Proof.
  intros s.
  destruct (addLogs_boot clock entries) as (Hring & _ & _ & _).
  fold s in Hring.
  destruct (obs_logs_run s) as [-> _]. simpl.
  by rewrite deref_insert, Hring, List.firstn_rev, stamps_length.
Qed.

(** X5: two reads of the log in a row answer with the same entries, in two
    arrays that are distinct from each other and from [logsBuffer], and
    leave the ring as it was. *)
Theorem obs_logs_twice (s : state) :
  allocated s →
  let first := obs_logs s in
  let second := obs_logs first.2 in
  first.1 ≠ second.1
  ∧ first.1 ≠ logsBuffer ∧ second.1 ≠ logsBuffer
  ∧ deref (heap second.2) first.1 = rev (ring s)
  ∧ deref (heap second.2) second.1 = rev (ring s)
  ∧ ring second.2 = ring s.
Proof.
  intros Halloc. cbv zeta.
  destruct (obs_logs_run s) as [E1 Hfresh1]. rewrite E1. cbn [fst snd].
  set (r1 := fresh (dom (heap s))) in *.
  set (s1 := State (<[r1 := rev (ring s)]> (heap s)) (ticks s)).
  assert (r1 ≠ logsBuffer) as Hr1.
  { intros Heq. apply Hfresh1. rewrite Heq. by apply elem_of_dom. }
  assert (ring s1 = ring s) as Hring1.
  { unfold ring, s1. simpl. by apply deref_insert_ne. }
  destruct (obs_logs_run s1) as [E2 Hfresh2]. rewrite E2. cbn [fst snd].
  set (r2 := fresh (dom (heap s1))) in *.
  assert (r1 ≠ r2) as Hne.
  { intros Heq. apply Hfresh2. rewrite <- Heq. unfold s1. simpl.
    apply elem_of_dom. rewrite lookup_insert_eq. by eexists. }
  assert (r2 ≠ logsBuffer) as Hr2.
  { intros Heq. apply Hfresh2. rewrite Heq. unfold s1. simpl.
    apply elem_of_dom. rewrite lookup_insert_ne by done. exact Halloc. }
  cbn [heap].
  split_and!; try done.
  - rewrite deref_insert_ne by done. unfold s1. simpl. apply deref_insert.
  - by rewrite deref_insert, Hring1.
  - unfold ring. simpl. rewrite deref_insert_ne by done. exact Hring1.
Qed.

Lemma obs_logs_twice_witness :
  let first := obs_logs loaded in
  let second := obs_logs first.2 in
  first.1 ≠ second.1
  ∧ first.1 ≠ logsBuffer ∧ second.1 ≠ logsBuffer
  ∧ deref (heap second.2) first.1 = rev (ring loaded)
  ∧ deref (heap second.2) second.1 = rev (ring loaded)
  ∧ ring second.2 = ring loaded.
Proof.
  apply (obs_logs_twice loaded). vm_compute. by eexists.
Defined.

(** ** The store under every interleaving *)

Lemma allocated_dom s : allocated s ↔ logsBuffer ∈ dom (heap s).
Proof. unfold allocated. by rewrite elem_of_dom. Qed.

#[local] Instance evolves_preorder : PreOrder evolves.
Proof.
  split.
  - intros s Halloc. split_and!; [done | done | by exists []].
  - intros s1 s2 s3 H12 H23 Halloc.
    destruct (H12 Halloc) as (Halloc2 & Hframe12 & logs12 & Hring12 & Hs12).
    destruct (H23 Halloc2) as (Halloc3 & Hframe23 & logs23 & Hring23 & Hs23).
    split_and!; [done | |].
    + intros r Hr Hdom. rewrite Hframe23, Hframe12; [done..|].
      apply elem_of_dom. rewrite Hframe12 by done. by apply elem_of_dom.
    + exists (logs12 ++ logs23). split; [|by apply Forall_app].
      by rewrite foldl_app, <- Hring12.
Qed.

(** Reading the clock changes no array. *)
Lemma evolves_ticks s t : evolves s (State (heap s) t).
Proof. intros Halloc. split_and!; [done | done | by exists []]. Qed.

(** Storing an entry in the ring is one [addLog] more. *)
Lemma evolves_store s ts entry t :
  evolves s
    (State (<[logsBuffer := ring_add (ring s) (stamp ts entry)]> (heap s)) t).
Proof.
  intros Halloc. split_and!.
  - unfold allocated. simpl. rewrite lookup_insert_eq. by eexists.
  - intros r Hr _. simpl. by rewrite lookup_insert_ne.
  - exists [stamp ts entry]. rewrite ring_insert. split; [done|].
    apply Forall_singleton. by eexists _, _.
Qed.

Lemma evolves_addLog clock entry s : evolves s (addLog clock entry s).2.
Proof. rewrite addLog_run. apply evolves_store. Qed.

Lemma evolves_obs_logs s : evolves s (obs_logs s).2.
Proof.
  intros Halloc. destruct (obs_logs_run s) as [-> Hfresh]. simpl.
  assert (fresh (dom (heap s)) ≠ logsBuffer) as Hne.
  { intros Heq. apply Hfresh. rewrite Heq. by apply allocated_dom. }
  split_and!.
  - unfold allocated. simpl. by rewrite lookup_insert_ne.
  - intros r _ Hdom. simpl. rewrite lookup_insert_ne; [done|].
    intros <-. by apply Hfresh.
  - exists []. split; [|done]. unfold ring. simpl. by apply deref_insert_ne.
Qed.

Lemma evolves_probe_resume clock svc start r s :
  evolves s (probe_resume clock svc start r s).2.
Proof. rewrite probe_resume_run. apply evolves_store. Qed.

Lemma evolves_launch clock targets s : evolves s (launch clock targets s).2.
Proof. rewrite launch_run. apply evolves_ticks. Qed.

Lemma evolves_settle clock net tasks i s :
  evolves s (settle clock net tasks i s).2.
Proof.
  unfold settle. destruct (tasks !! i) as [[svc start [o|]]|]; try done.
  unfold bind, ret.
  pose proof (evolves_probe_resume clock svc start (net i) s) as Hev.
  by destruct (probe_resume clock svc start (net i) s).
Qed.

Lemma evolves_obs_query_catch clock query message s :
  evolves s (obs_query_catch clock query message s).2.
Proof.
  unfold obs_query_catch. destruct (param_toString query); [|done].
  unfold bind, ret. rewrite addLog_run. apply evolves_store.
Qed.

Lemma evolves_obs_query_resume clock query r s :
  evolves s (obs_query_resume clock query r s).2.
Proof.
  destruct r as [data|message]; unfold obs_query_resume;
    [|apply evolves_obs_query_catch].
  destruct (param_toString query) eqn:Htext.
  - unfold bind, ret. rewrite addLog_run. apply evolves_store.
  - apply evolves_obs_query_catch.
Qed.

(** One turn of the event loop, whatever the event. *)
Lemma evolves_step clock targets ev sv :
  evolves (store sv) (store (step clock targets ev sv).2).
Proof.
  destruct ev as [| | |query| |id r|id i r]; unfold step.
  - apply evolves_ticks.
  - pose proof (evolves_obs_logs (store sv)) as Hev.
    by destruct (obs_logs (store sv)).
  - apply evolves_ticks.
  - by destruct (obs_query_begin query).
  - pose proof (evolves_launch clock targets (store sv)) as Hev.
    destruct (launch clock targets (store sv)) as [tasks st].
    destruct (Promise_all tasks); [|done].
    etrans; [exact Hev|]. apply evolves_ticks.
  - destruct (queries sv !! id) as [[q|]|]; try done.
    pose proof (evolves_obs_query_resume clock q r (store sv)) as Hev.
    by destruct (obs_query_resume clock q r (store sv)).
  - destruct (graphs sv !! id) as [tasks|]; [|done].
    destruct (tasks !! i) as [[svc start [o|]]|] eqn:Htask; try done.
    pose proof (evolves_settle clock (λ _, r) tasks i (store sv)) as Hev.
    destruct (settle clock (λ _, r) tasks i (store sv)) as [tasks' st].
    destruct (Promise_all tasks'); [|done].
    etrans; [exact Hev|]. apply evolves_ticks.
Qed.

Lemma serve_snoc clock targets events ev sv :
  serve clock targets (events ++ [ev]) sv
  = (step clock targets ev (serve clock targets events sv)).2.
Proof. unfold serve. by rewrite foldl_app. Qed.

Lemma evolves_serve clock targets events sv :
  evolves (store sv) (store (serve clock targets events sv)).
Proof.
  induction events as [|ev events IH] using rev_ind; [done|].
  rewrite serve_snoc. etrans; [exact IH|]. apply evolves_step.
Qed.

Lemma listening_store_ring clock :
  allocated (listening_store clock)
  ∧ ring (listening_store clock)
    = [LogEntry.mk (clock 0%nat) (js "info") (js "gateway")
         (js "Gateway started")].
Proof.
  unfold listening_store, startup. rewrite addLog_run. cbn [snd]. split.
  - unfold allocated. cbn [heap]. rewrite lookup_insert_eq. by eexists.
  - by rewrite ring_insert.
Qed.

Lemma foldl_ring_add_nonempty buf logs :
  buf ≠ [] → foldl ring_add buf logs ≠ [].
Proof.
  revert buf. induction logs as [|e logs IH]; intros buf Hbuf; [done|].
  simpl. apply IH. destruct (ring_add_last buf e) as [kept ->].
  by destruct kept.
Qed.

(** X6: whatever requests arrive and whatever awaited requests settle, in
    whatever order, the ring of a listening server holds between one and
    [MAX_LOGS] entries. *)
Theorem ring_bounds_always (clock : nat → Z) (targets : list Target.t)
    (events : list event) :
  let sv := serve clock targets events (listening clock) in
  (1 ≤ length (ring (store sv)) ≤ MAX_LOGS)%nat.
Proof.
  intros sv. destruct (listening_store_ring clock) as [Halloc Hring].
  destruct (evolves_serve clock targets events (listening clock) Halloc)
    as (_ & _ & logs & Hlogs & _).
  fold sv in Hlogs. simpl in Hlogs. rewrite Hlogs, Hring. split.
  - assert (foldl ring_add
              [LogEntry.mk (clock 0%nat) (js "info") (js "gateway")
                 (js "Gateway started")] logs ≠ []) as Hne
      by by apply foldl_ring_add_nonempty.
    destruct (foldl ring_add _ logs); [done|]. simpl. lia.
  - apply foldl_ring_add_length. simpl. unfold MAX_LOGS. lia.
Qed.




(** X8: the array [/obs/logs] answers with never changes afterwards,
    whatever the server does next: it holds what the ring held at the time
    of the read, newest first, for good. *)
Theorem snapshot_never_changes (clock : nat → Z) (targets : list Target.t)
    (before since : list event) :
  let sv := serve clock targets before (listening clock) in
  let read := step clock targets GET_obs_logs sv in
  ∃ items,
    read.1 = Some (logs_json items)
    ∧ items ≠ logsBuffer
    ∧ deref (heap (store read.2)) items = rev (ring (store sv))
    ∧ deref (heap (store (serve clock targets since read.2))) items
      = rev (ring (store sv)).
Proof.
  intros sv read. destruct (listening_store_ring clock) as [Halloc _].
  destruct (evolves_serve clock targets before (listening clock) Halloc)
    as (Halloc1 & _ & _).
  fold sv in Halloc1.
  destruct (obs_logs_run (store sv)) as [Erun Hfresh].
  set (items := fresh (dom (heap (store sv)))) in *.
  assert (read = (Some (logs_json items),
                  Server (State (<[items := rev (ring (store sv))]>
                                   (heap (store sv))) (ticks (store sv)))
                    (graphs sv) (queries sv))) as ->.
  { unfold read, step. by rewrite Erun. }
  cbn [fst snd store].
  assert (items ≠ logsBuffer) as Hne.
  { intros Heq. apply Hfresh. rewrite Heq. by apply allocated_dom. }
  exists items. split_and!; [done | done | apply deref_insert |].
  set (sv2 := Server _ _ _).
  destruct (evolves_serve clock targets since sv2) as (_ & Hframe & _).
  { unfold allocated, sv2. cbn [store heap]. by rewrite lookup_insert_ne. }
  unfold deref. rewrite Hframe; [|done|].
  - unfold sv2. cbn [store heap]. by rewrite lookup_insert_eq.
  - unfold sv2. cbn [store heap]. apply elem_of_dom.
    rewrite lookup_insert_eq. by eexists.
Qed.

(** ** [/obs/query] *)

Lemma obs_query_begin_Some (q : param) :
  q ≠ PStr [] → obs_query_begin (Some q) = Some q.
Proof. intros Hq. unfold obs_query_begin. by destruct q as [[|c s]| |]. Qed.

Lemma array_map_Return {A B} (f : A → completion B) (xs : list A) :
  Forall (λ x, ∃ y, f x = Return y) xs → ∃ ys, array_map f xs = Return ys.
Proof.
  induction 1 as [|x xs [y Hy] _ [ys IH]]; [by exists []|].
  exists (y :: ys). simpl. by rewrite Hy, IH.
Qed.

(** X9: [/obs/query] turns a request down with 400 when the query is absent
    or the empty string, and then stores nothing and does not read the
    clock. For any other query that a template literal can render (every
    string, and every array of strings) it stores exactly one entry, under
    ["gateway"], that quotes the query: an ["info"] entry when Prometheus
    answers, whose data it relays as they are, and an ["error"] entry when
    the request fails, in which case the client gets a fixed 500 body that
    does not depend on the failure's message. For a query that cannot be
    rendered (an object with a [toString] entry of its own) the template
    literal throws in the [try] block and again in the [catch] block:
    nothing is stored, nothing is answered and the exception leaves the
    handler, however the request to Prometheus settled. *)
Theorem obs_query_outcomes (clock : nat → Z) (query : option param)
    (upstream : axios_result) (s : state) :
  let run := obs_query clock query upstream s in
  ((query = None ∨ query = Some (PStr [])) → run = (Return missing_query, s))
  ∧ (∀ q, query = Some q → q ≠ PStr [] →
       match param_toString q with
       | Return text =>
           same_elsewhere s run.2
           ∧ match upstream with
             | Resolved data =>
                 run.1 = Return (Reply 200 data)
                 ∧ ring run.2
                   = ring_add (ring s)
                       (LogEntry.mk (clock (ticks s)) (js "info")
                          (js "gateway")
                          (js "PromQL query executed: "
                             ++ QUOTE :: text ++ [QUOTE]))
             | Rejected message =>
                 run.1
                 = Return
                     (Reply 500
                        (Obj [(js "error",
                               Str (js "Failed to query Prometheus"))]))
                 ∧ ring run.2
                   = ring_add (ring s)
                       (LogEntry.mk (clock (ticks s)) (js "error")
                          (js "gateway")
                          (js "PromQL query failed: "
                             ++ QUOTE :: text ++ QUOTE :: js " - " ++ message))
             end
       | Throw e => run = (Throw e, s)
       end)
  ∧ (∀ text, param_toString (PStr text) = Return text)
  ∧ (∀ texts, param_toString (PArr (PStr <$> texts))
              = Return (join COMMA texts))
  ∧ (∀ props, own_toString props = true →
       param_toString (PObj props) = Throw TypeError
       ∧ ∀ before after,
           param_toString (PArr (before ++ PObj props :: after))
           = Throw TypeError).
Proof.
  cbv zeta. split_and!.
  - by intros [->| ->].
  - intros q -> Hq. unfold obs_query. rewrite (obs_query_begin_Some q Hq).
    unfold obs_query_resume, obs_query_catch.
    destruct (param_toString q) as [text|e] eqn:Htext.
    + destruct upstream as [data|message]; rewrite ?Htext;
        unfold bind, ret; rewrite addLog_run; cbn [fst snd];
        (split; [apply same_elsewhere_insert|]); by rewrite ring_insert.
    + destruct upstream as [data|message]; by rewrite ?Htext.
  - done.
  - intros texts. cbn [param_toString].
    assert (array_map param_toString (PStr <$> texts) = Return texts) as ->;
      [|done].
    induction texts as [|text texts IH]; [done|].
    cbn [fmap list_fmap array_map param_toString]. by rewrite IH.
  - intros props Hown. cbn [param_toString]. rewrite Hown. split; [done|].
    intros before after.
    assert (array_map param_toString (before ++ PObj props :: after)
            = Throw TypeError) as ->; [|done].
    apply array_map_throws, Exists_app. right. apply Exists_cons. left.
    cbn [param_toString]. by rewrite Hown.
Qed.

Example obs_query_unrenderable :
  obs_query clock7
    (Some (PObj [(js "toString", PStr (js "x"))]))
    (Resolved (Obj [(js "status", Str (js "success"))])) loaded
  = (Throw TypeError, loaded).
Proof. vm_compute. reflexivity. Qed.

(** ** Health aggregator, continued *)

Lemma outcome_of_fields svc start now lastCheck r :
  HealthOutcome.latencyMs (outcome_of svc start now lastCheck r) = now - start
  ∧ HealthOutcome.lastCheck (outcome_of svc start now lastCheck r) = lastCheck
  ∧ (HealthOutcome.error (outcome_of svc start now lastCheck r)
     = match r with Resolved _ => None | Rejected message => Some message end)
  ∧ (HealthOutcome.status (outcome_of svc start now lastCheck r)
     = match r with
       | Resolved data => or_else (optional_status data) (Str (js "unknown"))
       | Rejected _ => Str (js "down")
       end).
Proof. by destruct r. Qed.

(** The outcome at each position of the answer, with the position at which
    its probe settled. *)
Lemma healthgraph_outcomes clock net targets s schedule :
  schedule ≡ₚ seq 0 (length targets) →
  ∃ body s',
    obs_healthgraph clock targets net schedule s = (Some body, s')
    ∧ timestamp body = clock (ticks s + 4 * length targets)%nat
    ∧ length (services body) = length targets
    ∧ ∀ i o, services body !! i = Some o →
        ∃ k svc, schedule !! k = Some i ∧ (k < length targets)%nat
          ∧ targets !! i = Some svc
          ∧ o = outcome_of svc (started_at clock (ticks s) i)
                  (resumed_at clock (ticks s) (length targets) k)
                  (checked_at clock (ticks s) (length targets) k) (net i).
Proof.
  intros Hperm.
  destruct (obs_healthgraph_run clock net targets s schedule Hperm)
    as (results & s' & Hrun & Hlen & Hat & _).
  destruct (schedule_fair targets schedule Hperm) as (_ & _ & Hslen & _).
  eexists _, s'. split; [exact Hrun|]. simpl. split_and!; [done | done |].
  intros i o Ho.
  assert (i < length targets)%nat as Hi
    by (rewrite <- Hlen; by eapply lookup_lt_Some).
  destruct (lookup_lt_is_Some_2 targets i Hi) as [svc Hsvc].
  settles_at Hperm i k Hk.
  exists k, svc. split_and!; [done | | done |].
  - rewrite <- Hslen. by eapply lookup_lt_Some.
  - rewrite (Hat k i svc Hk Hsvc) in Ho. congruence.
Qed.

(** X10: the handler answers only once every probe has settled. With the
    settlements of distinct probes delivered so far, it has answered if and
    only if there is one for each target: neither a first failure nor a
    first success makes it answer early. *)
Theorem healthgraph_waits_for_all (clock : nat → Z) (net : nat → axios_result)
    (targets : list Target.t) (s : state) (schedule : list nat) :
  NoDup schedule → Forall (λ i, i < length targets)%nat schedule →
  is_Some (obs_healthgraph clock targets net schedule s).1
  ↔ length schedule = length targets.
Proof.
  intros Hnodup Hrange.
  assert (schedule ⊆+ seq 0 (length targets)) as Hsub.
  { apply NoDup_submseteq; [done|]. intros i Hi. apply elem_of_seq.
    rewrite Forall_forall in Hrange. specialize (Hrange i Hi). lia. }
  split.
  - intros Hanswer.
    pose proof (event_loop_run clock net targets s schedule Hnodup Hrange)
      as Hloop.
    unfold obs_healthgraph, bind in Hanswer. unfold launched in Hloop.
    destruct (launch clock targets s) as [tasks1 s1]. cbn [fst snd] in Hloop.
    destruct (event_loop clock net schedule tasks1 s1) as [tasks s2].
    destruct Hloop as ([Hlen Htasks] & _).
    destruct (Promise_all tasks) as [results|] eqn:Hall;
      [|by destruct Hanswer].
    apply mapM_Some in Hall.
    assert (seq 0 (length targets) ⊆+ schedule) as Hsup.
    { apply NoDup_submseteq; [apply NoDup_seq|]. intros i Hi.
      apply elem_of_seq in Hi.
      destruct (decide (i ∈ schedule)) as [|Hout]; [done|]. exfalso.
      destruct (lookup_lt_is_Some_2 targets i) as [svc Hsvc]; [lia|].
      destruct (Htasks i svc Hsvc) as [Hpending _].
      destruct (Forall2_lookup_l _ _ _ _ _ Hall (Hpending Hout))
        as (o & _ & Ho).
      done. }
    apply submseteq_length in Hsub, Hsup. rewrite length_seq in Hsub, Hsup.
    lia.
  - intros Hlen.
    assert (schedule ≡ₚ seq 0 (length targets)) as Hperm.
    { apply submseteq_length_Permutation; [done|]. rewrite length_seq. lia. }
    destruct (obs_healthgraph_run clock net targets s schedule Hperm)
      as (results & s' & -> & _).
    by eexists.
Qed.

Lemma healthgraph_waits_for_all_witness :
  let targets := [Target.mk (js "a") (js "http://a");
                  Target.mk (js "b") (js "http://b")] in
  let net := λ _ : nat, Rejected (js "timeout of 2000ms exceeded") in
  is_Some (obs_healthgraph clock7 targets net [1%nat] loaded).1
  ↔ length [1%nat] = length targets.
Proof.
  intros targets net.
  apply (healthgraph_waits_for_all clock7 net targets loaded [1%nat]).
  - apply NoDup_singleton.
  - apply Forall_singleton. simpl. lia.
Defined.

(** X11: in the answer, an outcome carries an [error] exactly when the
    request of its probe was rejected, and then its status is ["down"]. The
    status alone does not tell: a target that answers 2xx with
    [{"status": "down"}] is reported with status ["down"] and no error. *)
Theorem healthgraph_error_iff_rejected (clock : nat → Z)
    (net : nat → axios_result) (targets : list Target.t) (s : state)
    (schedule : list nat) :
  schedule ≡ₚ seq 0 (length targets) →
  ∃ body s',
    obs_healthgraph clock targets net schedule s = (Some body, s')
    ∧ ∀ i o, services body !! i = Some o →
        (is_Some (HealthOutcome.error o) ↔ ∃ message, net i = Rejected message)
        ∧ (is_Some (HealthOutcome.error o) →
           HealthOutcome.status o = Str (js "down"))
        ∧ (∀ data, net i = Resolved data →
             optional_status data = Str (js "down") →
             HealthOutcome.status o = Str (js "down")
             ∧ HealthOutcome.error o = None).
Proof.
  intros Hperm.
  destruct (healthgraph_outcomes clock net targets s schedule Hperm)
    as (body & s' & Hrun & _ & _ & Hat).
  exists body, s'. split; [done|]. intros i o Ho.
  destruct (Hat i o Ho) as (k & svc & _ & _ & _ & ->).
  destruct (outcome_of_fields svc (started_at clock (ticks s) i)
              (resumed_at clock (ticks s) (length targets) k)
              (checked_at clock (ticks s) (length targets) k) (net i))
    as (_ & _ & -> & ->).
  destruct (net i) as [data|message]; split_and!.
  - split; [by intros [? ?] | by intros [? ?]].
  - by intros [? ?].
  - intros data' [= <-] Hdown. by rewrite Hdown.
  - split; [by eexists | by eexists].
  - done.
  - done.
Qed.

Lemma healthgraph_error_iff_rejected_witness :
  let targets := [Target.mk (js "a") (js "http://a")] in
  let net := λ _ : nat, Resolved (Obj [(js "status", Str (js "down"))]) in
  ∃ body s',
    obs_healthgraph clock7 targets net [0%nat] loaded = (Some body, s')
    ∧ ∀ i o, services body !! i = Some o →
        (is_Some (HealthOutcome.error o) ↔ ∃ message, net i = Rejected message)
        ∧ (is_Some (HealthOutcome.error o) →
           HealthOutcome.status o = Str (js "down"))
        ∧ (∀ data, net i = Resolved data →
             optional_status data = Str (js "down") →
             HealthOutcome.status o = Str (js "down")
             ∧ HealthOutcome.error o = None).
Proof.
  intros targets net.
  apply (healthgraph_error_iff_rejected clock7 net targets loaded [0%nat]).
  reflexivity.
Defined.

(** X12: when the readings of the clock never go back, every [latencyMs]
    of the answer is non-negative and no [lastCheck] is later than the
    [timestamp] of the answer. (The clock is the wall clock: when it is set
    back during a probe, the difference the handler computes is
    negative.) *)
Theorem healthgraph_times_ordered (clock : nat → Z) (net : nat → axios_result)
    (targets : list Target.t) (s : state) (schedule : list nat) :
  (∀ m n : nat, (m ≤ n)%nat → clock m ≤ clock n) →
  schedule ≡ₚ seq 0 (length targets) →
  ∃ body s',
    obs_healthgraph clock targets net schedule s = (Some body, s')
    ∧ Forall (λ o, 0 ≤ HealthOutcome.latencyMs o
                   ∧ HealthOutcome.lastCheck o ≤ timestamp body)
        (services body).
Proof.
  intros Hmono Hperm.
  destruct (healthgraph_outcomes clock net targets s schedule Hperm)
    as (body & s' & Hrun & Hstamp & _ & Hat).
  exists body, s'. split; [done|]. apply Forall_lookup. intros i o Ho.
  destruct (Hat i o Ho) as (k & svc & Hk & Hlt & Hsvc & ->).
  destruct (outcome_of_fields svc (started_at clock (ticks s) i)
              (resumed_at clock (ticks s) (length targets) k)
              (checked_at clock (ticks s) (length targets) k) (net i))
    as (-> & -> & _).
  apply lookup_lt_Some in Hsvc.
  unfold started_at, resumed_at, checked_at. rewrite Hstamp. split.
  - assert (clock (ticks s + i)%nat
            ≤ clock (ticks s + length targets + 3 * k)%nat)
      by (apply Hmono; lia).
    lia.
  - apply Hmono. lia.
Qed.

Lemma healthgraph_times_ordered_witness :
  let targets := [Target.mk (js "a") (js "http://a");
                  Target.mk (js "b") (js "http://b")] in
  let net := λ i : nat, match i with
                        | O => Resolved (Obj [(js "status", Str (js "ok"))])
                        | _ => Rejected (js "timeout of 2000ms exceeded")
                        end in
  ∃ body s',
    obs_healthgraph clock7 targets net [1; 0]%nat loaded = (Some body, s')
    ∧ Forall (λ o, 0 ≤ HealthOutcome.latencyMs o
                   ∧ HealthOutcome.lastCheck o ≤ timestamp body)
        (services body).
Proof.
  intros targets net.
  apply (healthgraph_times_ordered clock7 net targets loaded [1; 0]%nat).
  - intros m n Hmn. unfold clock7. lia.
  - simpl. apply perm_swap.
Defined.

(** A clock that is set back by a minute after its second reading. *)
Definition clock_set_back (n : nat) : Z :=
  match n with
  | O | S O => 100000 + Z.of_nat n
  | _ => 40000 + Z.of_nat n
  end.

Example healthgraph_negative_latency :
  (obs_healthgraph clock_set_back [Target.mk (js "a") (js "http://a")]
     (λ _, Resolved (Obj [(js "status", Str (js "ok"))])) [0%nat]
     (listening_store clock_set_back)).1
  = Some (Healthgraph 40005
            [HealthOutcome.mk (js "a") (js "http://a") (Str (js "ok"))
               (-59999) None 40004]).
Proof. vm_compute. reflexivity. Qed.

(** ** [/health] *)

(** X13: [/health] lists the names of the registry in registry order, the
    same names, in the same order, as the outcomes of [/obs/healthgraph];
    its status is ["ok"] whatever the probes would find, and it leaves
    every array of the store alone. *)
Theorem obs_health_lists_registry (clock : nat → Z) (net : nat → axios_result)
    (targets : list Target.t) (s s1 : state) (schedule : list nat) :
  schedule ≡ₚ seq 0 (length targets) →
  ∃ body s',
    obs_healthgraph clock targets net schedule s = (Some body, s')
    ∧ Health.services (obs_health clock targets s1).1
      = HealthOutcome.name <$> services body
    ∧ Health.status (obs_health clock targets s1).1 = js "ok"
    ∧ heap (obs_health clock targets s1).2 = heap s1.
Proof.
  intros Hperm.
  destruct (healthgraph_outcomes clock net targets s schedule Hperm)
    as (body & s' & Hrun & _ & Hlen & Hat).
  exists body, s'. split; [done|]. split_and!; [|done|done].
  unfold obs_health, bind, ret, new_Date_toISOString, Date_now.
  cbn [fst Health.services].
  change (List.map Target.name targets) with (Target.name <$> targets).
  apply list_eq. intros i. rewrite !list_lookup_fmap.
  destruct (services body !! i) as [o|] eqn:Ho.
  - destruct (Hat i o Ho) as (k & svc & _ & _ & Hsvc & ->).
    rewrite Hsvc. simpl. f_equal. symmetry. apply outcome_of_name.
  - rewrite lookup_ge_None_2; [done|].
    apply lookup_ge_None_1 in Ho. lia.
Qed.

Lemma obs_health_lists_registry_witness :
  let targets := [Target.mk (js "a") (js "http://a");
                  Target.mk (js "b") (js "http://b")] in
  let net := λ _ : nat, Rejected (js "timeout of 2000ms exceeded") in
  ∃ body s',
    obs_healthgraph clock7 targets net [1; 0]%nat loaded = (Some body, s')
    ∧ Health.services (obs_health clock7 targets loaded).1
      = HealthOutcome.name <$> services body
    ∧ Health.status (obs_health clock7 targets loaded).1 = js "ok"
    ∧ heap (obs_health clock7 targets loaded).2 = heap loaded.
Proof.
  intros targets net.
  apply (obs_health_lists_registry clock7 net targets loaded loaded
           [1; 0]%nat).
  simpl. apply perm_swap.
Defined.

(** ** The users service *)

Lemma SERVICE_NAME_nonempty (env : option jsstring) : SERVICE_NAME env ≠ [].
Proof. by destruct env as [[|c s]|]. Qed.

Lemma replace_non_word_units (s : jsstring) :
  Forall (λ c, word_unit c = true) (replace_non_word s).
Proof.
  induction s as [|c s IH]; [by constructor|].
  simpl. constructor; [|done]. by destruct (word_unit c) eqn:Hc.
Qed.

Lemma replace_non_word_id (s : jsstring) :
  Forall (λ c, word_unit c = true) s → replace_non_word s = s.
Proof.
  induction 1 as [|c s Hc _ IH]; [done|]. simpl. by rewrite Hc, IH.
Qed.

(** X14: whatever [SERVICE_NAME] is set to, [METRIC_PREFIX] consists of
    letters, digits and underscores only, is one code unit longer than the
    service name, ends with an underscore, and is built from the service
    name itself: the inner default ["service"] is never used, since the
    name is never empty. *)
Theorem METRIC_PREFIX_word_units (env : option jsstring) :
  Forall (λ c, word_unit c = true) (METRIC_PREFIX env)
  ∧ length (METRIC_PREFIX env) = S (length (SERVICE_NAME env))
  ∧ last (METRIC_PREFIX env) = Some 95%N
  ∧ METRIC_PREFIX env = replace_non_word (SERVICE_NAME env) ++ js "_"
  ∧ (2 ≤ length (METRIC_PREFIX env))%nat.
Proof.
  assert (METRIC_PREFIX env = replace_non_word (SERVICE_NAME env) ++ js "_")
    as Hprefix.
  { unfold METRIC_PREFIX. pose proof (SERVICE_NAME_nonempty env) as Hne.
    by destruct (SERVICE_NAME env). }
  assert (length (METRIC_PREFIX env) = S (length (SERVICE_NAME env))) as Hlen.
  { rewrite Hprefix, length_app. unfold replace_non_word.
    rewrite length_map. simpl. lia. }
  split_and!.
  - rewrite Hprefix. apply Forall_app. split.
    + apply replace_non_word_units.
    + by repeat constructor.
  - done.
  - rewrite Hprefix. apply last_snoc.
  - done.
  - rewrite Hlen. pose proof (SERVICE_NAME_nonempty env) as Hne.
    destruct (SERVICE_NAME env); [done|]. simpl. lia.
Qed.

(** X15: a service name made of letters, digits and underscores is kept as
    it is, a leading digit included; replacing is idempotent, so a name and
    the name with its other characters already replaced by underscores get
    the same prefix. *)
Theorem METRIC_PREFIX_keeps_word_names (name : jsstring) :
  name ≠ [] →
  (Forall (λ c, word_unit c = true) name →
   METRIC_PREFIX (Some name) = name ++ js "_")
  ∧ replace_non_word (replace_non_word name) = replace_non_word name
  ∧ METRIC_PREFIX (Some (replace_non_word name)) = METRIC_PREFIX (Some name).
Proof.
  intros Hne.
  assert (∀ s, s ≠ [] →
            METRIC_PREFIX (Some s) = replace_non_word s ++ js "_") as Hprefix.
  { intros s Hs. unfold METRIC_PREFIX, SERVICE_NAME.
    by destruct s as [|c s]. }
  assert (replace_non_word (replace_non_word name) = replace_non_word name)
    as Hidem by apply replace_non_word_id, replace_non_word_units.
  split_and!.
  - intros Hword. by rewrite Hprefix, replace_non_word_id.
  - done.
  - rewrite !Hprefix, Hidem; [done | done |]. by destruct name.
Qed.

Lemma METRIC_PREFIX_keeps_word_names_witness :
  replace_non_word (replace_non_word (js "users-service"))
  = replace_non_word (js "users-service")
  ∧ METRIC_PREFIX (Some (replace_non_word (js "users-service")))
    = METRIC_PREFIX (Some (js "users-service")).
Proof.
  assert (js "users-service" ≠ []) as Hne by done.
  exact (proj2 (METRIC_PREFIX_keeps_word_names (js "users-service") Hne)).
Defined.

Example METRIC_PREFIX_default : METRIC_PREFIX None = js "users_service_".
Proof. vm_compute. reflexivity. Qed.

(** ** One [/obs/healthgraph] in the event loop *)

Lemma answers_app clock targets events later sv :
  answers clock targets (events ++ later) sv
  = answers clock targets events sv
    ++ answers clock targets later (serve clock targets events sv).
Proof.
  revert sv. induction events as [|ev events IH]; intros sv; [done|].
  simpl. by rewrite IH.
Qed.

(** With the settlements of distinct probes delivered, [Promise.all] has
    resolved exactly when there is one for each target. *)
Lemma Promise_all_complete clock net targets s schedule tasks :
  NoDup schedule → Forall (λ i, i < length targets)%nat schedule →
  tasks_ok clock net targets s schedule tasks →
  is_Some (Promise_all tasks) ↔ length schedule = length targets.
Proof.
  intros Hnodup Hrange [Hlen Htasks].
  assert (schedule ⊆+ seq 0 (length targets)) as Hsub.
  { apply NoDup_submseteq; [done|]. intros i Hi. apply elem_of_seq.
    rewrite Forall_forall in Hrange. specialize (Hrange i Hi). lia. }
  split.
  - intros [results Hall]. apply mapM_Some in Hall.
    assert (seq 0 (length targets) ⊆+ schedule) as Hsup.
    { apply NoDup_submseteq; [apply NoDup_seq|]. intros i Hi.
      apply elem_of_seq in Hi.
      destruct (decide (i ∈ schedule)) as [|Hout]; [done|]. exfalso.
      destruct (lookup_lt_is_Some_2 targets i) as [svc Hsvc]; [lia|].
      destruct (Htasks i svc Hsvc) as [Hpending _].
      destruct (Forall2_lookup_l _ _ _ _ _ Hall (Hpending Hout))
        as (o & _ & Ho).
      done. }
    apply submseteq_length in Hsub, Hsup. rewrite length_seq in Hsub, Hsup.
    lia.
  - intros Hfull.
    assert (schedule ≡ₚ seq 0 (length targets)) as Hperm.
    { apply submseteq_length_Permutation; [done|]. rewrite length_seq. lia. }
    destruct (schedule_fair targets schedule Hperm) as (_ & _ & _ & Hall).
    apply mapM_is_Some, Forall_lookup. intros i t Ht.
    assert (i < length targets)%nat as Hi
      by (rewrite <- Hlen; by eapply lookup_lt_Some).
    destruct (lookup_lt_is_Some_2 targets i Hi) as [svc Hsvc].
    destruct (Hall i Hi) as [k Hk].
    destruct (Htasks i svc Hsvc) as [_ Hs].
    rewrite (Hs k Hk) in Ht. injection Ht as <-. by eexists.
Qed.

(** The turn of the event loop in which a pending probe of the newest
    [/obs/healthgraph] settles. *)
Lemma step_probe_settles clock targets net gs qs tasks st i svc start :
  tasks !! i = Some (Probe svc start None) →
  step clock targets (probe_settles (length gs) i (net i))
    (Server st (gs ++ [tasks]) qs)
  = match Promise_all (settle clock net tasks i st).1 with
    | Some results =>
        (Some (healthgraph_json
                 (Healthgraph (clock (ticks (settle clock net tasks i st).2))
                    results)),
         Server (State (heap (settle clock net tasks i st).2)
                   (S (ticks (settle clock net tasks i st).2)))
           (gs ++ [(settle clock net tasks i st).1]) qs)
    | None =>
        (None,
         Server (settle clock net tasks i st).2
           (gs ++ [(settle clock net tasks i st).1]) qs)
    end.
Proof.
  intros Htask. unfold step. cbn [graphs store queries].
  rewrite list_lookup_middle by done. rewrite Htask.
  change (settle clock (λ _, net i) tasks i st)
    with (settle clock net tasks i st).
  destruct (settle clock net tasks i st) as [tasks' st']. cbn [fst snd].
  assert (<[length gs := tasks']> (gs ++ [tasks]) = gs ++ [tasks']) as ->.
  { rewrite insert_app_r_alt by lia. by rewrite Nat.sub_diag. }
  by destruct (Promise_all tasks').
Qed.

(** While settlements are missing, the handler stays silent. *)
Lemma serve_probes_pending clock net targets sv schedule tasks st :
  NoDup schedule → Forall (λ i, i < length targets)%nat schedule →
  (length schedule < length targets)%nat →
  event_loop clock net schedule (launched clock targets (store sv)).1
    (launched clock targets (store sv)).2 = (tasks, st) →
  let sv1 := Server (launched clock targets (store sv)).2
               (graphs sv ++ [(launched clock targets (store sv)).1])
               (queries sv) in
  let events := List.map (λ i, probe_settles (length (graphs sv)) i (net i))
                  schedule in
  serve clock targets events sv1 = Server st (graphs sv ++ [tasks]) (queries sv)
  ∧ answers clock targets events sv1 = replicate (length schedule) None.
Proof.
  revert tasks st.
  induction schedule as [|i schedule IH] using rev_ind;
    intros tasks st Hnodup Hrange Hshort Hloop; cbv zeta.
  - simpl in Hloop. unfold ret in Hloop. by injection Hloop as <- <-.
  - pose proof Hnodup as Hnodup'. pose proof Hrange as Hrange'.
    apply NoDup_app in Hnodup as (Hnodup & Hfresh & _).
    apply Forall_app in Hrange as [Hrange Hi].
    rewrite Forall_singleton in Hi. rewrite length_app in Hshort.
    simpl in Hshort.
    assert (i ∉ schedule) as Hnew
      by (intros ?; eapply Hfresh; [done | by left]).
    rewrite event_loop_snoc in Hloop.
    pose proof (event_loop_run clock net targets (store sv) schedule
                  Hnodup Hrange) as Hp.
    cbv zeta in Hp.
    destruct (event_loop clock net schedule _ _) as [tasks_p st_p] eqn:Ep.
    destruct (IH tasks_p st_p Hnodup Hrange ltac:(lia) eq_refl)
      as [Hserve Hanswers].
    destruct Hp as ([_ Htasks] & _).
    destruct (lookup_lt_is_Some_2 targets i Hi) as [svc Hsvc].
    destruct (Htasks i svc Hsvc) as [Hpending _].
    specialize (Hpending Hnew).
    pose proof (event_loop_run clock net targets (store sv) (schedule ++ [i])
                  Hnodup' Hrange') as Hfull.
    cbv zeta in Hfull. rewrite event_loop_snoc, Ep, Hloop in Hfull.
    destruct Hfull as (Hok & _).
    assert (Promise_all tasks = None) as Hnone.
    { destruct (Promise_all tasks) eqn:Hall; [|done]. exfalso.
      assert (length (schedule ++ [i]) = length targets) as Hlen.
      { eapply Promise_all_complete; [exact Hnodup' | exact Hrange'
                                     | exact Hok | by eexists]. }
      rewrite length_app in Hlen. simpl in Hlen. lia. }
    rewrite List.map_app. cbn [List.map].
    rewrite serve_snoc, answers_app, Hserve, Hanswers. cbn [answers].
    rewrite (step_probe_settles clock targets net _ _ _ _ _ _ _ Hpending).
    rewrite Hloop. cbn [fst snd]. rewrite Hnone. cbn [fst snd]. split; [done|].
    rewrite length_app. simpl.
    by rewrite Nat.add_1_r, replicate_S_end.
Qed.

(** X16: in the event loop, a [/obs/healthgraph] request over a non-empty
    registry whose probes all settle with nothing else in between is
    answered in the turn of the last settlement and in no turn before, with
    the body [obs_healthgraph] computes, and leaves the store as
    [obs_healthgraph] does. *)
Theorem healthgraph_served_alone (clock : nat → Z) (net : nat → axios_result)
    (targets : list Target.t) (sv : server) (schedule : list nat) :
  targets ≠ [] → schedule ≡ₚ seq 0 (length targets) →
  let events :=
    GET_obs_healthgraph
    :: List.map (λ i, probe_settles (length (graphs sv)) i (net i)) schedule in
  ∃ body s',
    obs_healthgraph clock targets net schedule (store sv) = (Some body, s')
    ∧ answers clock targets events sv
      = replicate (length targets) None ++ [Some (healthgraph_json body)]
    ∧ store (serve clock targets events sv) = s'.
Proof.
  intros Hne Hperm. cbv zeta.
  destruct (schedule_fair targets schedule Hperm)
    as (Hnodup & Hrange & Hlen & _).
  destruct schedule as [|i schedule _] using rev_ind.
  { destruct targets; [done | simpl in Hlen; lia]. }
  pose proof Hnodup as Hnodup'. pose proof Hrange as Hrange'.
  apply NoDup_app in Hnodup as (Hnodup & Hfresh & _).
  apply Forall_app in Hrange as [Hrange Hi].
  rewrite Forall_singleton in Hi.
  rewrite length_app in Hlen. simpl in Hlen.
  assert (i ∉ schedule) as Hnew by (intros ?; eapply Hfresh; [done | by left]).
  (* the first turn starts the probes *)
  assert (Promise_all (launched clock targets (store sv)).1 = None) as Hfirst.
  { unfold launched. rewrite launch_run. cbn [fst].
    destruct targets as [|svc targets]; [done|]. done. }
  assert (step clock targets GET_obs_healthgraph sv
          = (None,
             Server (launched clock targets (store sv)).2
               (graphs sv ++ [(launched clock targets (store sv)).1])
               (queries sv))) as Hstart.
  { unfold step, launched in *.
    destruct (launch clock targets (store sv)) as [tasks0 st0].
    cbn [fst snd] in *. by rewrite Hfirst. }
  (* the turns before the last *)
  pose proof (event_loop_run clock net targets (store sv) schedule
                Hnodup Hrange) as Hp.
  cbv zeta in Hp.
  destruct (event_loop clock net schedule _ _) as [tasks_p st_p] eqn:Ep.
  destruct (serve_probes_pending clock net targets sv schedule tasks_p st_p
              Hnodup Hrange ltac:(lia) Ep) as [Hserve Hanswers].
  destruct Hp as ([_ Htasks] & _).
  destruct (lookup_lt_is_Some_2 targets i Hi) as [svc Hsvc].
  destruct (Htasks i svc Hsvc) as [Hpending _]. specialize (Hpending Hnew).
  (* the handler run as a whole *)
  unfold obs_healthgraph, bind. unfold launched in Ep.
  destruct (launch clock targets (store sv)) as [tasks0 st0] eqn:El.
  cbn [fst snd] in Ep. rewrite event_loop_snoc, Ep.
  pose proof (event_loop_run clock net targets (store sv) (schedule ++ [i])
                Hnodup' Hrange') as Hfull.
  cbv zeta in Hfull. unfold launched in Hfull.
  rewrite El in Hfull. cbn [fst snd] in Hfull.
  rewrite event_loop_snoc, Ep in Hfull.
  destruct (settle clock net tasks_p i st_p) as [tasks st] eqn:Es.
  destruct Hfull as (Hok & _).
  assert (is_Some (Promise_all tasks)) as [results Hall].
  { eapply Promise_all_complete; [exact Hnodup' | exact Hrange' | exact Hok |].
    rewrite length_app. simpl. lia. }
  rewrite Hall. unfold new_Date_toISOString, Date_now, ret.
  eexists _, _. split; [reflexivity|].
  unfold launched in Hstart, Hserve, Hanswers. rewrite El in Hstart, Hserve,
    Hanswers. cbn [fst snd] in Hstart, Hserve, Hanswers.
  cbn [answers serve foldl]. rewrite Hstart. cbn [fst snd].
  rewrite List.map_app. cbn [List.map]. rewrite answers_app.
  change (foldl (λ sv0 ev, (step clock targets ev sv0).2) ?a ?l)
    with (serve clock targets l a).
  rewrite serve_snoc, Hserve, Hanswers. cbn [answers].
  rewrite (step_probe_settles clock targets net _ _ _ _ _ _ _ Hpending).
  rewrite Es. cbn [fst snd]. rewrite Hall. cbn [fst snd store]. split; [|done].
  by rewrite <- Hlen, Nat.add_1_r, replicate_S.
Qed.

Lemma healthgraph_served_alone_witness :
  let targets := [Target.mk (js "a") (js "http://a");
                  Target.mk (js "b") (js "http://b")] in
  let net := λ i : nat, match i with
                        | O => Resolved (Obj [(js "status", Str (js "ok"))])
                        | _ => Rejected (js "timeout of 2000ms exceeded")
                        end in
  let events := [GET_obs_healthgraph; probe_settles 0 1 (net 1%nat);
                 probe_settles 0 0 (net 0%nat)] in
  ∃ body s',
    obs_healthgraph clock7 targets net [1; 0]%nat
      (store (listening clock7)) = (Some body, s')
    ∧ answers clock7 targets events (listening clock7)
      = [None; None; Some (healthgraph_json body)]
    ∧ store (serve clock7 targets events (listening clock7)) = s'.
Proof.
  intros targets net events.
  apply (healthgraph_served_alone clock7 net targets (listening clock7)
           [1; 0]%nat).
  - done.
  - simpl. apply perm_swap.
Defined.

(** ** Log entries under every interleaving *)

Lemma or_string_nonempty (given : option jsstring) (dflt : jsstring) :
  dflt ≠ [] → or_string given dflt ≠ [].
Proof. by destruct given as [[|c s]|]. Qed.

Lemma stamped_labelled e :
  stamped e → LogEntry.level e ≠ [] ∧ LogEntry.service e ≠ [].
Proof. intros (ts & entry & ->). split; by apply or_string_nonempty. Qed.

Lemma ring_add_Forall (P : LogEntry.t → Prop) buf e :
  Forall P buf → P e → Forall P (ring_add buf e).
Proof.
  intros Hbuf He. unfold ring_add.
  assert (Forall P (buf ++ [e])) as Hall
    by (apply Forall_app; split; [done | by apply Forall_singleton]).
  destruct (_ <? _)%nat; [|done].
  destruct (buf ++ [e]); [done|]. by apply Forall_cons in Hall as [_ ?].
Qed.

Lemma foldl_ring_add_Forall (P : LogEntry.t → Prop) buf logs :
  Forall P buf → Forall P logs → Forall P (foldl ring_add buf logs).
Proof.
  intros Hbuf Hlogs. revert buf Hbuf.
  induction Hlogs as [|e logs He _ IH]; intros buf Hbuf; [done|].
  simpl. by apply IH, ring_add_Forall.
Qed.

(** X17: under every interleaving of requests and settlements, every entry
    in the ring of a running gateway has a non-empty level and a non-empty
    service, whatever the callers of [addLog] passed for them. *)
Theorem log_entries_labelled (clock : nat → Z) (targets : list Target.t)
    (events : list event) :
  let sv := serve clock targets events (listening clock) in
  Forall (λ e, LogEntry.level e ≠ [] ∧ LogEntry.service e ≠ [])
    (ring (store sv)).
Proof.
  intros sv. destruct (listening_store_ring clock) as [Halloc Hring].
  destruct (evolves_serve clock targets events (listening clock) Halloc)
    as (_ & _ & logs & Hlogs & Hstamped).
  fold sv in Hlogs. rewrite Hlogs.
  apply foldl_ring_add_Forall.
  - unfold listening. cbn [store]. rewrite Hring.
    apply Forall_singleton. by split.
  - eapply Forall_impl; [exact Hstamped|]. apply stamped_labelled.
Qed.

(** ** The dashboard *)

(** X19: the dashboard's [svc.status.toUpperCase()] throws on an outcome of
    [/obs/healthgraph] exactly when the probed target answered 2xx with a
    [status] that is truthy but not a string (a number, [true], an array,
    an object), which the gateway passes through as it is; on every other
    outcome the status is a string. *)
Theorem status_label_throws (toUpperCase : jsstring → jsstring)
    (clock : nat → Z) (net : nat → axios_result) (targets : list Target.t)
    (s : state) (schedule : list nat) :
  schedule ≡ₚ seq 0 (length targets) →
  ∃ body s',
    obs_healthgraph clock targets net schedule s = (Some body, s')
    ∧ ∀ i o, services body !! i = Some o →
        status_label toUpperCase (HealthOutcome.status o) = Throw TypeError
        ↔ ∃ data, net i = Resolved data
                  ∧ truthy (optional_status data) = true
                  ∧ ∀ text, optional_status data ≠ Str text.
Proof.
  intros Hperm.
  destruct (healthgraph_outcomes clock net targets s schedule Hperm)
    as (body & s' & Hrun & _ & _ & Hat).
  exists body, s'. split; [done|]. intros i o Ho.
  destruct (Hat i o Ho) as (k & svc & _ & _ & _ & ->).
  destruct (outcome_of_fields svc (started_at clock (ticks s) i)
              (resumed_at clock (ticks s) (length targets) k)
              (checked_at clock (ticks s) (length targets) k) (net i))
    as (_ & _ & _ & ->).
  destruct (net i) as [data|message].
  - unfold or_else.
    destruct (truthy (optional_status data)) eqn:Htruthy.
    + split.
      * intros Hthrow. exists data. split_and!; [done | done |].
        intros text Htext. rewrite Htext in Hthrow. done.
      * intros (data' & [= <-] & _ & Hnot).
        destruct (optional_status data) as [| |b|x|text|items|props];
          try done.
        by destruct (Hnot text).
    + split; [done|]. intros (data' & [= <-] & Htrue & _). congruence.
  - split; [done|]. by intros (data & ? & _).
Qed.

Lemma status_label_throws_witness :
  let targets := [Target.mk (js "a") (js "http://a")] in
  let net := λ _ : nat, Resolved (Obj [(js "status", Bool true)]) in
  ∃ body s',
    obs_healthgraph clock7 targets net [0%nat] loaded = (Some body, s')
    ∧ ∀ i o, services body !! i = Some o →
        status_label (λ text, text) (HealthOutcome.status o) = Throw TypeError
        ↔ ∃ data, net i = Resolved data
                  ∧ truthy (optional_status data) = true
                  ∧ ∀ text, optional_status data ≠ Str text.
Proof.
  intros targets net.
  apply (status_label_throws (λ text, text) clock7 net targets loaded
           [0%nat]).
  reflexivity.
Defined.

(** ** The chart of the dashboard *)

Section DashboardFacts.

Variable float_text : float → jsstring.
Variable parseFloat_text : jsstring → float.

Lemma is_string_true v s : is_string v s = true ↔ v = Str s.
Proof.
  destruct v; simpl; try (split; [done | by intros [=]]).
  rewrite bool_decide_eq_true. split; [by intros -> | by intros [= ->]].
Qed.

(** The conversion to a string throws exactly on the values that
    [stringifies] rules out. *)
Lemma ToString_cases (v : value) :
  (stringifies v = true ∧ ∃ text, ToString float_text v = Return text)
  ∨ (stringifies v = false ∧ ToString float_text v = Throw TypeError).
Proof.
  revert v. fix IH 1. intros [| |b|x|s|items|props].
  - left. split; [done | by eexists].
  - left. split; [done | by eexists].
  - left. split; [done | by eexists].
  - left. split; [done | by eexists].
  - left. split; [done | by eexists].
  - cbn [stringifies ToString].
    assert ((forallb stringifies items = true
             ∧ ∃ texts,
                 array_map
                   (λ item, if nullish item then Return []
                            else ToString float_text item) items
                 = Return texts)
            ∨ (forallb stringifies items = false
               ∧ array_map
                   (λ item, if nullish item then Return []
                            else ToString float_text item) items
                 = Throw TypeError)) as [[-> [texts ->]]|[-> ->]].
    { induction items as [|item items IHitems]; [left; by eauto|].
      cbn [forallb array_map].
      destruct (IH item) as [[-> [text Htext]]|[-> Hthrow]].
      - assert ((if nullish item then Return []
                 else ToString float_text item)
                = Return (if nullish item then [] else text)) as ->
          by by destruct (nullish item).
        destruct IHitems as [[-> [texts ->]]|[-> ->]];
          [left; by eauto | by right].
      - right. split; [done|].
        destruct item as [| |b|x|s|items'|props]; try done.
        + cbn [nullish]. by rewrite Hthrow.
        + cbn [nullish]. by rewrite Hthrow. }
    + left. split; [done | by eexists].
    + by right.
  - cbn [stringifies ToString]. destruct (own_toString props).
    + by right.
    + left. split; [done | by eexists].
Qed.

Lemma get_prop_own (item : value) (key : jsstring) :
  nullish item = false → get_prop item key = Return (own_prop item key).
Proof. by destruct item. Qed.

Lemma labels_cases (entries : list (jsstring * value)) :
  (forallb (λ kv, stringifies kv.2) entries = true
   ∧ ∃ pieces,
       array_map
         (λ kv, and_then (ToString float_text kv.2)
                  (λ text, Return (kv.1 ++ EQUALS :: text))) entries
       = Return pieces)
  ∨ (forallb (λ kv, stringifies kv.2) entries = false
     ∧ array_map
         (λ kv, and_then (ToString float_text kv.2)
                  (λ text, Return (kv.1 ++ EQUALS :: text))) entries
       = Throw TypeError).
Proof.
  induction entries as [|[k v] entries IH]; [left; by eauto|].
  cbn [forallb array_map fst snd].
  destruct (ToString_cases v) as [[-> [text ->]]|[-> ->]]; [|by right].
  cbn [and_then andb].
  destruct IH as [[-> [pieces ->]]|[-> ->]]; [left; by eauto | by right].
Qed.

(** A sample makes the callback throw exactly when it is not drawable;
    otherwise the point bears the index it was given. *)
Lemma chart_point_cases index item :
  (drawable item = false
   ∧ chart_point float_text parseFloat_text index item = Throw TypeError)
  ∨ (drawable item = true
     ∧ ∃ p, chart_point float_text parseFloat_text index item = Return p
            ∧ Point.idx p = index).
Proof.
  unfold drawable, chart_point.
  destruct (nullish item) eqn:Hnull.
  { left. split; [done|]. by destruct item. }
  rewrite !(get_prop_own item) by done. cbn [and_then negb andb].
  fold (sample_text item). unfold parseFloat.
  destruct (ToString_cases (sample_text item)) as [[-> [text ->]]|[-> ->]];
    [|by left].
  cbn [and_then andb].
  change (Object_entries
            (if nullish (own_prop item (js "metric")) then Obj []
             else own_prop item (js "metric")))
    with (sample_labels item).
  destruct (labels_cases (sample_labels item)) as [[-> [pieces ->]]|[-> ->]];
    [|by left].
  right. split; [done|]. by eexists.
Qed.

Lemma chart_points_indexed (g : nat → nat) (items : list value) :
  let run := array_map
               (λ ix, chart_point float_text parseFloat_text ix.1 ix.2)
               (imap (λ i x, (g i, x)) items) in
  (Exists (λ item, drawable item = false) items → run = Throw TypeError)
  ∧ (Forall (λ item, drawable item = true) items →
     ∃ points, run = Return points
               ∧ length points = length items
               ∧ ∀ i p, points !! i = Some p → Point.idx p = g i).
Proof.
  revert g. induction items as [|item items IH]; intros g; cbv zeta.
  - split; [by intros ?%Exists_nil|]. intros _. exists []. by split_and!.
  - change (imap (λ i x, (g i, x)) (item :: items))
      with ((g 0%nat, item) :: imap (λ i x, (g (S i), x)) items).
    destruct (IH (λ i, g (S i))) as [IHthrow IHret]. cbn [array_map fst snd].
    destruct (chart_point_cases (g 0%nat) item)
      as [[Hbad ->]|[Hok (p & -> & Hidx)]].
    + split; [done|]. intros Hall. apply Forall_cons in Hall as [Hitem _].
      congruence.
    + split.
      * intros [Hitem|Hrest]%Exists_cons; [congruence|].
        by rewrite (IHthrow Hrest).
      * intros [_ Hrest]%Forall_cons.
        destruct (IHret Hrest) as (points & -> & Hlen & Hat).
        exists (p :: points). split_and!; [done | simpl; congruence |].
        intros [|i] q Hq; simpl in Hq; [congruence | by apply Hat].
Qed.

(** What [chartData] does, by the shape of the answer. *)
Lemma chartData_cases (promResult : value) :
  (∃ samples,
      instant_vector promResult samples
      ∧ chartData float_text parseFloat_text promResult
        = match samples with
          | Arr items =>
              array_mapi (chart_point float_text parseFloat_text) items
          | _ => Throw TypeError
          end)
  ∨ ((∀ samples, ¬ instant_vector promResult samples)
     ∧ chartData float_text parseFloat_text promResult = Return []).
Proof.
  unfold chartData.
  destruct promResult as [| |b|x|s|items|props];
    try (right; split;
         [by intros samples (? & ? & ? & _)
         | simpl; try done; by destruct (negb _)]).
  cbn [truthy negb get_prop and_then].
  destruct (is_string (assoc (js "status") props) (js "success")) eqn:Hstatus;
    cbn [negb].
  2:{ right. split; [|done]. intros samples (props' & ? & [= <-] & Hs & _).
      apply is_string_true in Hs. congruence. }
  apply is_string_true in Hstatus.
  destruct (assoc (js "data") props) as [| |b|x|s|items|data] eqn:Hdata;
    try (right; split;
         [intros samples (props' & ? & [= <-] & _ & ? & _); congruence
         | simpl; try done; by destruct (negb _)]).
  cbn [truthy negb get_prop and_then].
  destruct (is_string (assoc (js "resultType") data) (js "vector")) eqn:Htype;
    cbn [negb].
  2:{ right. split; [|done].
      intros samples (props' & data' & [= <-] & _ & Hd & Ht & _).
      apply is_string_true in Ht. congruence. }
  apply is_string_true in Htype.
  left. exists (assoc (js "result") data). split; [|done].
  by exists props, data.
Qed.

(** A sample of the shape Prometheus gives, with its labels and its value
    as strings, is drawable. *)
Lemma prometheus_sample_drawable (labels : list (jsstring * jsstring))
    (t : value) (text : jsstring) :
  drawable (Obj [(js "metric", Obj (prod_map id Str <$> labels));
                 (js "value", Arr [t; Str text])]) = true.
Proof.
  unfold drawable, sample_text, sample_labels.
  cbn -[forallb]. apply forallb_forall. intros [k v] Hin.
  apply List.in_map_iff in Hin as ([k' s] & [= <- <-] & _). done.
Qed.

End DashboardFacts.

Lemma assoc_here key v props : assoc key ((key, v) :: props) = v.
Proof. simpl. by rewrite bool_decide_eq_true_2. Qed.

(** X18: [chartData] throws, and with it the rendering of the dashboard,
    exactly when the answer has status ["success"] and data of type
    ["vector"] but its [result] is not an array or holds a sample that is
    not drawable: a [null] sample, or one whose value or label cannot be
    converted to a string (an object with a [toString] property of its
    own). On an answer that is not such a vector ([null], an error, a
    matrix) it returns no point; on a vector of drawable samples, as are the
    samples Prometheus gives, it returns one point per sample, each with its
    position as [idx]. *)
Theorem chartData_behaviour (float_text : float → jsstring)
    (parseFloat_text : jsstring → float) (promResult : value) :
  let chart := chartData float_text parseFloat_text promResult in
  (chart = Throw TypeError
   ↔ ∃ samples,
       instant_vector promResult samples
       ∧ ∀ items, samples = Arr items →
           Exists (λ item, drawable item = false) items)
  ∧ ((∀ samples, ¬ instant_vector promResult samples) → chart = Return [])
  ∧ (∀ items,
       instant_vector promResult (Arr items) →
       Forall (λ item, drawable item = true) items →
       ∃ points, chart = Return points
                 ∧ length points = length items
                 ∧ ∀ i p, points !! i = Some p → Point.idx p = i)
  ∧ drawable Null = false
  ∧ (∀ t props,
       own_toString props = true →
       drawable (Obj [(js "value", Arr [t; Obj props])]) = false)
  ∧ (∀ (labels : list (jsstring * jsstring)) t text,
       drawable (Obj [(js "metric", Obj (prod_map id Str <$> labels));
                      (js "value", Arr [t; Str text])]) = true).
Proof.
  cbv zeta.
  assert (∀ a b, instant_vector promResult a → instant_vector promResult b →
            a = b) as Hfun.
  { intros a b (p1 & d1 & -> & _ & Hd1 & _ & <-)
      (p2 & d2 & [= <-] & _ & Hd2 & _ & <-).
    congruence. }
  assert (∀ t props, own_toString props = true →
            drawable (Obj [(js "value", Arr [t; Obj props])]) = false)
    as Hbad.
  { intros t props Hown. unfold drawable, sample_text, own_prop.
    rewrite assoc_here.
    cbn [nullish get_index1 lookup list_lookup default from_option id].
    cbn [stringifies negb andb]. by rewrite Hown. }
  destruct (chartData_cases float_text parseFloat_text promResult)
    as [(samples & Hshape & ->)|[Hnone ->]].
  - split_and!; [| | |done|done|apply prometheus_sample_drawable].
    + split.
      * intros Hthrow. exists samples. split; [done|]. intros items ->.
        destruct (decide (Forall (λ item, drawable item = true) items))
          as [Hall|Hsome].
        -- destruct (chart_points_indexed float_text parseFloat_text id items)
             as [_ Hret].
           destruct (Hret Hall) as (points & Hpoints & _).
           unfold array_mapi in Hthrow.
           cbv beta zeta delta [id] in Hpoints. congruence.
        -- apply not_Forall_Exists in Hsome; [|apply _].
           eapply Exists_impl; [exact Hsome|]. intros item Hitem. simpl in *.
           by destruct (drawable item).
      * intros (samples' & Hshape' & Hnull).
        rewrite <- (Hfun _ _ Hshape Hshape') in Hnull.
        destruct samples as [| |b|x|s|items|props]; try done.
        destruct (chart_points_indexed float_text parseFloat_text id items)
          as [Hthrow _].
        apply Hthrow. by apply Hnull.
    + intros Hnone. by destruct (Hnone samples).
    + intros items Hitems Hall.
      rewrite (Hfun _ _ Hshape Hitems).
      destruct (chart_points_indexed float_text parseFloat_text id items)
        as [_ Hret].
      exact (Hret Hall).
  - split_and!; [| | |done|done|apply prometheus_sample_drawable].
    + split; [done|]. intros (samples & Hshape & _). by destruct (Hnone samples).
    + done.
    + intros items Hitems. by destruct (Hnone (Arr items)).
Qed.

Example chartData_up :
  chartData (λ _, js "17") (λ _, 1%float)
    (Obj [(js "status", Str (js "success"));
          (js "data",
           Obj [(js "resultType", Str (js "vector"));
                (js "result",
                 Arr [Obj [(js "metric",
                            Obj [(js "job", Str (js "gateway"));
                                 (js "instance", Str (js "gw:4000"))]);
                           (js "value", Arr [Num 17%float; Str (js "1")])];
                      Obj [(js "value", Arr [Num 17%float; Str (js "1")])]])])])
  = Return [Point.mk 0 1%float (js "job=gateway, instance=gw:4000");
            Point.mk 1 1%float (js "")].
Proof. vm_compute. reflexivity. Qed.

Example chartData_null_sample :
  chartData (λ _, js "17") (λ _, 1%float)
    (Obj [(js "status", Str (js "success"));
          (js "data",
           Obj [(js "resultType", Str (js "vector"));
                (js "result", Arr [Null])])])
  = Throw TypeError.
Proof. vm_compute. reflexivity. Qed.

Example chartData_unconvertible_value :
  chartData (λ _, js "17") (λ _, 1%float)
    (Obj [(js "status", Str (js "success"));
          (js "data",
           Obj [(js "resultType", Str (js "vector"));
                (js "result",
                 Arr [Obj [(js "value",
                            Arr [Num 17%float;
                                 Obj [(js "toString", Num 1%float)]])]])])])
  = Throw TypeError.
Proof. vm_compute. reflexivity. Qed.
